(** * pipsync: reconciling requirements files with a Pipfile

    A shallow embedding of [src/pipsync/__init__.py] -- the [Requirement]
    model, the [Pipfile] and [PipfileLock] readers and
    [PackageProcessor.generate_requirements] -- together with the
    properties the specification states about them.

    Python [str] values are modelled as [string] (sequences of 8-bit
    characters), [dict]s as [gmap]s, [set]s as [gset]s, and a raised
    [KeyError] as [None]. Logging has no influence on any returned value
    and is left out. *)

From Stdlib Require Import Ascii String.
From stdpp Require Import gmap strings list fin_maps sorting.

(** ** String primitives used by the source *)

Module Str.

(** The line feed character, ["\n"]. *)
Definition nl : ascii := Ascii.ascii_of_nat 10.

Definition is_nl (c : ascii) : bool := bool_decide (c = nl).

(** [s.rstrip("\n")]: every trailing line feed is removed. *)
Fixpoint rstrip (s : string) : string :=
  match s with
  | EmptyString => EmptyString
  | String c s' =>
      match rstrip s' with
      | EmptyString => if is_nl c then EmptyString else String c EmptyString
      | r => String c r
      end
  end.

(** [s[len(p):]] when [s.startswith(p)]. *)
Fixpoint strip_prefix (p s : string) : option string :=
  match p, s with
  | EmptyString, _ => Some s
  | String a p', String b s' =>
      if bool_decide (a = b) then strip_prefix p' s' else None
  | String _ _, EmptyString => None
  end.

(** [s.split(sep)[0]]: the text before the first occurrence of [sep],
    all of [s] when [sep] does not occur. ([sep] is never empty here.) *)
Fixpoint split_head (sep s : string) : string :=
  match strip_prefix sep s with
  | Some _ => EmptyString
  | None =>
      match s with
      | EmptyString => EmptyString
      | String c s' => String c (split_head sep s')
      end
  end.

(** The longest prefix of [s] that a regular expression's [.*] can
    consume (no line feed), and what is left. *)
Fixpoint dot_star (s : string) : string * string :=
  match s with
  | EmptyString => (EmptyString, EmptyString)
  | String c s' =>
      if is_nl c then (EmptyString, s)
      else let '(p, r) := dot_star s' in (String c p, r)
  end.

(** No line feed occurs in [s]. *)
Fixpoint one_line (s : string) : bool :=
  match s with
  | EmptyString => true
  | String c s' => negb (is_nl c) && one_line s'
  end.

(** [sub in s]. *)
Definition occurs (sub s : string) : Prop := ∃ a b, s = a +:+ sub +:+ b.

End Str.

(** ** The Requirement model *)

(** [@dataclass(frozen=True) class Requirement] *)
Record Requirement := mkRequirement {
  package_name : string;
  requirement_line : string
}.

(** The equality of the dataclass is decidable. *)
Global Instance Requirement_eq_dec : EqDecision Requirement.
Proof. solve_decision. Defined.

(** [Requirement.git_parser], the compiled pattern
    ^(?:-e )?git\+ .* #egg= (?P<package> .* ) $
    (written here with blanks between its parts) applied with [match]: a
    backtracking matcher written out for this pattern, alternatives tried
    in the order Python's [re] tries them. The result is the text of the
    group [package] of the first successful attempt. *)
Module GitParser.

(** The group [package] and the final [$]: the group takes as many
    characters as it can; [$] holds at the end of the string and just
    before a line feed that ends it. Giving characters back never helps
    [$]. *)
Definition package_group (s : string) : option string :=
  let '(p, r) := Str.dot_star s in
  if bool_decide (r = EmptyString ∨ r = String Str.nl EmptyString)
  then Some p else None.

(** From the first [.*] on: the greedy [.*] first tries to take one
    more character (never a line feed), and only when the rest fails
    to match from there is [#egg=] tried at the current position. *)
Fixpoint egg_tail (s : string) : option string :=
  let here := Str.strip_prefix "#egg=" s ≫= package_group in
  match s with
  | EmptyString => here
  | String c s' =>
      if Str.is_nl c then here
      else match egg_tail s' with
           | Some p => Some p
           | None => here
           end
  end.

(** From [git\+] on. *)
Definition git_tail (s : string) : option string :=
  Str.strip_prefix "git+" s ≫= egg_tail.

(** The whole pattern: the optional group [(?:-e )?] is tried first
    with its text, then without. *)
Definition search (s : string) : option string :=
  match Str.strip_prefix "-e " s ≫= git_tail with
  | Some p => Some p
  | None => git_tail s
  end.

End GitParser.

(** [Requirement.parse_requirement_line] *)
Definition parse_requirement_line (line : string) : Requirement :=
  match GitParser.search line with
  | Some package => mkRequirement (Str.rstrip package) (Str.rstrip line)
  | None =>
      mkRequirement (Str.split_head "==" (Str.rstrip line)) (Str.rstrip line)
  end.

(** A package entry of Pipfile.lock, with the fields [from_data] reads.
    A field is [None] when the key is absent. *)
Record LockEntry := mkLockEntry {
  version : option string;
  git : option string;
  editable : option bool;
  ref : option string
}.

(** Python truth of [package_data.get(key)] for a string field: an absent
    key gives [None], and the empty string is false as well. *)
Definition truthy (field : option string) : option string :=
  match field with
  | Some EmptyString => None
  | Some s => Some s
  | None => None
  end.

(** [Requirement.from_data] *)
Definition from_data (name : string) (package_data : LockEntry)
  : Requirement :=
  match truthy (version package_data) with
  | Some v => mkRequirement name (name +:+ v)
  | None =>
      match truthy (git package_data) with
      | Some git_url =>
          let prefix :=
            match editable package_data with
            | Some true => "-e "
            | _ => ""
            end in
          let ref :=
            match truthy (ref package_data) with
            | Some git_ref => "@" +:+ git_ref
            | None => ""
            end in
          mkRequirement name
            (prefix +:+ "git+" +:+ git_url +:+ ref +:+ "#egg=" +:+ name)
      | None => mkRequirement name name
      end
  end.

(** ** Pipfile and Pipfile.lock readers *)

(** [class Pipfile]: the parsed TOML document, of which the tables
    [packages] and [dev-packages] are read. *)
Module Pipfile.

Record t := mk {
  packages : gmap string string;
  dev_packages_table : gmap string string
}.

Definition default_packages (self : t) : gmap string string :=
  packages self.

Definition dev_packages (self : t) : gmap string string :=
  dev_packages_table self.

(** The dict display with both tables unpacked: on a name that both
    tables have, the later one, [dev-packages], wins. *)
Definition all_packages (self : t) : gmap string string :=
  dev_packages_table self ∪ packages self.

End Pipfile.

(** [class PipfileLock]: the parsed JSON document, of which the sections
    [default] and [develop] are read. *)
Module PipfileLock.

Record t := mk {
  default_section : gmap string LockEntry;
  develop_section : gmap string LockEntry
}.

(** The comprehension over the items of a section. *)
Definition requirements_of_section (section : gmap string LockEntry)
  : gmap string Requirement :=
  map_imap (λ name entry, Some (from_data name entry)) section.

Definition default (self : t) : gmap string Requirement :=
  requirements_of_section (default_section self).

Definition dev (self : t) : gmap string Requirement :=
  requirements_of_section (develop_section self).

End PipfileLock.

(** ** The package processor *)

(** One element of the JSON array printed by the external graph command:
    the name under [package] and the names under [dependencies]. *)
Record GraphNode := mkGraphNode {
  node_package : string;
  node_dependencies : list string
}.

(** [class PackageProcessor], with [graph] holding what the cached
    property returns. *)
Record PackageProcessor := mkPackageProcessor {
  pipfile : Pipfile.t;
  pipfile_lock : PipfileLock.t;
  force : bool;
  in_place : bool;
  include_dev : bool;
  graph : list GraphNode
}.

(** [PackageProcessor.dependency_map]: a dict comprehension, so of two
    nodes with one name the later one stays. *)
Definition dependency_map (self : PackageProcessor)
  : gmap string (list string) :=
  foldl (λ m node, <[node_package node := node_dependencies node]> m)
        ∅ (graph self).

(** The local [requirements] of [generate_requirements]: a dict
    comprehension, the last requirement of a name stays. *)
Definition requirements (requirements_list : list Requirement)
  : gmap string Requirement :=
  foldl (λ m requirement, <[package_name requirement := requirement]> m)
        ∅ requirements_list.

Definition environment (self : PackageProcessor) : gmap string string :=
  if include_dev self
  then Pipfile.all_packages (pipfile self)
  else Pipfile.default_packages (pipfile self).

(** The section of the lock that [version_map] unpacks after
    [requirements]. *)
Definition lock_map (self : PackageProcessor) : gmap string Requirement :=
  if include_dev self
  then PipfileLock.dev (pipfile_lock self)
  else PipfileLock.default (pipfile_lock self).

(** Entries of the lock replace entries of [requirements]. *)
Definition version_map (self : PackageProcessor)
    (requirements_list : list Requirement) : gmap string Requirement :=
  lock_map self ∪ requirements requirements_list.

(** The inner generator: each name, then its dependencies when the graph
    knows the name. *)
Fixpoint generate_dependencies (self : PackageProcessor)
    (names : list string) : list string :=
  match names with
  | [] => []
  | requirement :: rest =>
      requirement
        :: match dependency_map self !! requirement with
           | Some deps => deps
           | None => []
           end
        ++ generate_dependencies self rest
  end.

Definition root_requirements (self : PackageProcessor)
    (requirements_list : list Requirement) : gset string :=
  dom (requirements requirements_list) ∩ dom (environment self).

(** [full_dependencies] as first assigned: the set of what the
    generator yields for the roots. *)
Definition reached (self : PackageProcessor)
    (requirements_list : list Requirement) : gset string :=
  list_to_set
    (generate_dependencies self
       (elements (root_requirements self requirements_list))).

(** [full_dependencies] as it stands when the last line is reached. *)
Definition full_dependencies (self : PackageProcessor)
    (requirements_list : list Requirement) : gset string :=
  if in_place self && negb (force self)
  then reached self requirements_list ∪ dom (requirements requirements_list)
  else reached self requirements_list.

(** [sorted] on a set of strings. *)
Definition sorted (names : gset string) : list string :=
  merge_sort String.le (elements names).

(** [PackageProcessor.generate_requirements]; [None] stands for the
    [KeyError] of [version_map[dep]]. *)
Definition generate_requirements (self : PackageProcessor)
    (requirements_list : list Requirement) : option (list string) :=
  mapM (λ dep, requirement_line <$> version_map self requirements_list !! dep)
       (sorted (full_dependencies self requirements_list)).

(** ** Notions the statements below are phrased with *)

Module Spec.

(** [k] line feeds. *)
Fixpoint newlines (k : nat) : string :=
  match k with
  | 0 => ""
  | S k' => String Str.nl (newlines k')
  end.

(** The empty string or one line feed: where [$] can hold. *)
Definition line_end (t : string) : Prop := t = "" ∨ t = String Str.nl "".

(** [h] is what stands before the first occurrence of [sep] in [s]. *)
Definition before_first (sep s h : string) : Prop :=
  ∃ b, s = h +:+ sep +:+ b ∧
       ∀ a' b', s = a' +:+ sep +:+ b' → String.length h ≤ String.length a'.

(** [line] is in the language of the pattern of [git_parser]: an
    optional [-e ], then [git+], any text, [#egg=], any text, and
    nothing more than one line feed after it. *)
Definition vcs_pattern (line : string) : Prop :=
  ∃ e x p t, (e = "" ∨ e = "-e ") ∧ line_end t ∧
    Str.one_line x = true ∧ Str.one_line p = true ∧
    line = e +:+ "git+" +:+ x +:+ "#egg=" +:+ p +:+ t.

(** [line] has the VCS form and [name] is its egg fragment: the text
    after the last [#egg=]. *)
Definition vcs_form (line name : string) : Prop :=
  ∃ e x t, (e = "" ∨ e = "-e ") ∧ line_end t ∧
    Str.one_line x = true ∧ Str.one_line name = true ∧
    ¬ Str.occurs "#egg=" name ∧
    line = e +:+ "git+" +:+ x +:+ "#egg=" +:+ name +:+ t.

(** [line] is the line that [version_map] holds for the name [n]. *)
Definition line_of (self : PackageProcessor) (l : list Requirement)
    (n line : string) : Prop :=
  ∃ r, version_map self l !! n = Some r ∧ requirement_line r = line.

(** A string field of a lock entry that is there and not empty. *)
Definition present (field : option string) (v : string) : Prop :=
  field = Some v ∧ v ≠ "".

(** A string field of a lock entry that is missing or empty. *)
Definition blank (field : option string) : Prop :=
  field = None ∨ field = Some "".

(** A character a package name is made of here: no line feed, no [=]
    and no [+]. *)
Definition plain_char (c : ascii) : bool :=
  negb (Str.is_nl c) && negb (bool_decide (c = "="%char))
  && negb (bool_decide (c = "+"%char)).

Fixpoint plain_name (s : string) : bool :=
  match s with
  | EmptyString => true
  | String c s' => plain_char c && plain_name s'
  end.

(** The version of the entry, when it counts, begins with [==]. *)
Definition pinned_version (e : LockEntry) : bool :=
  match truthy (version e) with
  | Some v => bool_decide (is_Some (Str.strip_prefix "==" v))
  | None => true
  end.

(** A field without line feed. *)
Definition one_line_field (field : option string) : bool :=
  match field with
  | Some s => Str.one_line s
  | None => true
  end.

End Spec.

(** ** Inputs the statements below are evaluated at *)

Module Examples.

(** A lock entry that pins a version. *)
Definition pinned (v : string) : LockEntry :=
  mkLockEntry (Some v) None None None.

(** A lock entry whose version is the empty string, with a git URL. *)
Definition empty_version_entry : LockEntry :=
  mkLockEntry (Some "") (Some "https://x") None None.

(** The git entry of the specification. *)
Definition git_entry : LockEntry :=
  mkLockEntry None (Some "https://x") (Some true) (Some "main").

(** The scenario of the specification: [a] and [b] are declared, the
    lock resolves [a], [b] and [c], and [a] depends on [c]. *)
Definition scenario (force in_place include_dev : bool) : PackageProcessor :=
  mkPackageProcessor
    (Pipfile.mk (list_to_map [("a", "*"); ("b", "*")]) ∅)
    (PipfileLock.mk
       (list_to_map [("a", pinned "==1.0"); ("b", pinned "==2.0");
                     ("c", pinned "==3.0")])
       ∅)
    force in_place include_dev
    [mkGraphNode "a" ["c"]; mkGraphNode "b" []].

Definition scenario_existing : list Requirement :=
  [mkRequirement "a" "a==0.9"; mkRequirement "b" "b==2.0"].

(** A requirement that manifest, lock and graph do not know. *)
Definition orphan : Requirement := mkRequirement "x" "x==9.9".

(** A dependency chain with both ends of its first link declared: [a]
    depends on [c], [c] on [d], and [a] and [c] are in the manifest. *)
Definition chain : PackageProcessor :=
  mkPackageProcessor
    (Pipfile.mk (list_to_map [("a", "*"); ("c", "*")]) ∅)
    (PipfileLock.mk
       (list_to_map [("a", pinned "==1.0"); ("c", pinned "==1.0");
                     ("d", pinned "==1.0")])
       ∅)
    false false false
    [mkGraphNode "a" ["c"]; mkGraphNode "c" ["d"]].

Definition chain_existing : list Requirement :=
  [mkRequirement "a" "a==1.0"].

End Examples.

(** The processor of the same project made with other values of
    [force] and [in_place]. *)
Definition with_flags (self : PackageProcessor) (force in_place : bool)
  : PackageProcessor :=
  mkPackageProcessor (pipfile self) (pipfile_lock self) force in_place
                     (include_dev self) (graph self).

(** ** What [generate_requirements] logs *)

(** The four messages of [generate_requirements], each with the package
    it names. The level and the wording are in the comments. *)
Inductive LogRecord :=
  | GraphMiss (requirement : string)
    (* warning: Package ... not found in dependency graph *)
  | ForceRemoved (package : string)
    (* info: Force Sync: package ... removed *)
  | SkippedDev (package : string)
    (* info: Skipping dev dependency: package ... *)
  | MissingInPipfile (package : string).
    (* info: Missing dependency in Pipfile: package ... *)

(** The warnings of the inner generator: one for each name the graph
    does not know. *)
Fixpoint generate_dependencies_log (self : PackageProcessor)
    (names : list string) : list LogRecord :=
  match names with
  | [] => []
  | requirement :: rest =>
      match dependency_map self !! requirement with
      | Some _ => []
      | None => [GraphMiss requirement]
      end
      ++ generate_dependencies_log self rest
  end.

(** The local [missing]: the existing names the generator did not
    yield. *)
Definition missing (self : PackageProcessor)
    (requirements_list : list Requirement) : gset string :=
  dom (requirements requirements_list) ∖ reached self requirements_list.

(** The message for one missing package in the branch taken when
    [in_place and not force] is false. *)
Definition missing_record (self : PackageProcessor) (package : string)
  : LogRecord :=
  if in_place self then ForceRemoved package
  else if negb (include_dev self)
          && bool_decide (package ∈ dom (Pipfile.dev_packages (pipfile self)))
       then SkippedDev package
       else MissingInPipfile package.

(** All that [generate_requirements] logs, in the order of the calls;
    sets are visited in the order of [elements]. The records are written
    before the last line of the function is run, so also when that line
    raises. *)
Definition generate_requirements_log (self : PackageProcessor)
    (requirements_list : list Requirement) : list LogRecord :=
  generate_dependencies_log self
    (elements (root_requirements self requirements_list))
  ++ if in_place self && negb (force self)
     then []
     else missing_record self <$> elements (missing self requirements_list).

(** ** Reading and writing requirements files *)

(** The text of a file as [main] reads and writes it, on a system whose
    line separator is the line feed. *)
Module Text.

(** The carriage return character. *)
Definition cr : ascii := Ascii.ascii_of_nat 13.

Definition is_cr (c : ascii) : bool := bool_decide (c = cr).

(** What a file opened for reading in text mode does to its content: a
    carriage return with or without a line feed after it becomes a line
    feed. *)
Fixpoint universal_newlines (s : string) : string :=
  match s with
  | EmptyString => EmptyString
  | String c s' =>
      if is_cr c then
        match s' with
        | String d s'' =>
            if Str.is_nl d then String Str.nl (universal_newlines s'')
            else String Str.nl (universal_newlines s')
        | EmptyString => String Str.nl EmptyString
        end
      else String c (universal_newlines s')
  end.

(** The lines a loop over a text file yields: each with its line feed,
    the last one without when the text does not end in one. *)
Fixpoint lines (s : string) : list string :=
  match s with
  | EmptyString => []
  | String c s' =>
      if Str.is_nl c then String c EmptyString :: lines s'
      else match lines s' with
           | [] => [String c EmptyString]
           | line :: rest => String c line :: rest
           end
  end.

(** [sep.join(ls)] *)
Fixpoint join (sep : string) (ls : list string) : string :=
  match ls with
  | [] => EmptyString
  | [x] => x
  | x :: rest => x +:+ sep +:+ join sep rest
  end.

(** What [print] of the joined lines writes: the lines with a line feed
    between them and one at the end. *)
Definition render (req_content : list string) : string :=
  join (String Str.nl EmptyString) req_content +:+ String Str.nl EmptyString.

(** The text with a carriage return put before each line feed, as a
    system with that line separator stores it. *)
Fixpoint to_crlf (s : string) : string :=
  match s with
  | EmptyString => EmptyString
  | String c s' =>
      if Str.is_nl c then String cr (String c (to_crlf s'))
      else String c (to_crlf s')
  end.

(** No carriage return occurs in [s]. *)
Fixpoint no_cr (s : string) : bool :=
  match s with
  | EmptyString => true
  | String c s' => negb (is_cr c) && no_cr s'
  end.

(** A line without line feed and carriage return. *)
Definition clean_line (s : string) : bool := Str.one_line s && no_cr s.

(** A line as the loop over a file yields it: a text without line feed,
    with a line feed after it, or not empty and without one. *)
Definition file_line (line : string) : Prop :=
  ∃ body, Str.one_line body = true
          ∧ (line = body +:+ String Str.nl EmptyString
             ∨ (line = body ∧ body ≠ EmptyString)).

End Text.

(** The list comprehension of [main] over an opened file. *)
Definition read_requirements (content : string) : list Requirement :=
  parse_requirement_line <$> Text.lines (Text.universal_newlines content).

(** The body of the loop of [main] for the content of one file: [None]
    when [generate_requirements] raises, else [Some (Some text)] with
    the text to write, or [Some None] when the result is empty and the
    file is skipped. *)
Definition sync_content (self : PackageProcessor) (content : string)
  : option (option string) :=
  req_content ← generate_requirements self (read_requirements content);
  Some match req_content with
       | [] => None
       | _ => Some (Text.render req_content)
       end.

(** A path to a file: the components of its directory and its name. *)
Record FilePath := mkFilePath {
  parent : list string;
  file_name : string
}.

Global Instance FilePath_eq_dec : EqDecision FilePath.
Proof. solve_decision. Defined.

Global Instance FilePath_countable : Countable FilePath :=
  inj_countable' (λ p, (parent p, file_name p))
                 (λ '(d, n), mkFilePath d n)
                 (λ p, match p with mkFilePath _ _ => eq_refl end).

(** [file_path.parent / "requirements.txt"] *)
Definition target (file_path : FilePath) : FilePath :=
  mkFilePath (parent file_path) "requirements.txt".

(** The files and the two counters of [main]. *)
Record RunState := mkRunState {
  files : gmap FilePath string;
  synced_count : nat;
  skipped_count : nat
}.

(** How the loop of [main] ends: after the last file, or with an
    exception (a file that cannot be opened, or the [KeyError] of
    [generate_requirements]) in the state reached by then. *)
Inductive RunResult :=
  | Finished (st : RunState)
  | Raised (st : RunState).

(** The loop of [main] over [dependency_files]. *)
Fixpoint sync_files (self : PackageProcessor) (dependency_files : list FilePath)
    (st : RunState) : RunResult :=
  match dependency_files with
  | [] => Finished st
  | file_path :: rest =>
      match files st !! file_path with
      | None => Raised st
      | Some content =>
          match sync_content self content with
          | None => Raised st
          | Some (Some text) =>
              sync_files self rest
                (mkRunState (<[target file_path := text]> (files st))
                            (S (synced_count st)) (skipped_count st))
          | Some None =>
              sync_files self rest
                (mkRunState (files st) (synced_count st)
                            (S (skipped_count st)))
          end
      end
  end.

(** The state in which the loop ended. *)
Definition final_state (result : RunResult) : RunState :=
  match result with
  | Finished st => st
  | Raised st => st
  end.

(** ** Searching the project for requirements files *)

(** A directory as [os.walk] sees it: the names under which it holds a
    readable regular file, and the directories below it that the walk
    can enter, each with its name, in the order the walk lists them. *)
Inductive Dir :=
  | mkDir (readable : gset string) (subdirs : list (string * Dir)).

Definition readable (d : Dir) : gset string :=
  match d with mkDir files _ => files end.

Definition subdirs (d : Dir) : list (string * Dir) :=
  match d with mkDir _ dirs => dirs end.

(** [d.startswith(".")] *)
Definition hidden (d : string) : bool :=
  bool_decide (is_Some (Str.strip_prefix "." d)).

(** The test that keeps a directory name in [dirs]: its path is not in
    [exclude] and the name does not begin with a dot. A path is the list
    of its components. *)
Definition kept (path : list string) (exclude : list (list string))
    (d : string) : bool :=
  bool_decide (path ++ [d] ∉ exclude) && negb (hidden d).

(** [recursive_search], for the directory [dir] found at [path]: the
    file of the directory itself first, then what the walk yields below
    each directory that is kept. *)
Fixpoint recursive_search (path : list string) (name : string)
    (exclude : list (list string)) (dir : Dir) : list FilePath :=
  match dir with
  | mkDir files dirs =>
      (if bool_decide (name ∈ files) then [mkFilePath path name] else [])
      ++ (fix walk (dirs : list (string * Dir)) : list FilePath :=
            match dirs with
            | [] => []
            | (d, sub) :: rest =>
                (if kept path exclude d
                 then recursive_search (path ++ [d]) name exclude sub
                 else [])
                ++ walk rest
            end) dirs
  end.

(** [find_dependency_files] *)
Definition find_dependency_files (root_dir : list string) (name : string)
    (exclude : list (list string)) (dir : Dir) : list FilePath :=
  recursive_search root_dir name exclude dir.

(** [below path exclude dir rel sub]: from [dir] at [path], going down
    through the directories named in [rel], each of them kept, leads to
    [sub]. *)
Inductive below (exclude : list (list string))
  : list string → Dir → list string → Dir → Prop :=
  | below_here path dir : below exclude path dir [] dir
  | below_step path dir d sub rel sub' :
      (d, sub) ∈ subdirs dir →
      kept path exclude d = true →
      below exclude (path ++ [d]) sub rel sub' →
      below exclude path dir (d :: rel) sub'.

(** Texts of files for the scenario of the specification. *)
Module Files.

Definition nl : string := String Str.nl EmptyString.

(** The existing file of the scenario. *)
Definition existing_text : string :=
  "a==0.9" +:+ nl +:+ "b==2.0" +:+ nl.

(** The file the strict run writes for it. *)
Definition synced_text : string :=
  "a==1.0" +:+ nl +:+ "b==2.0" +:+ nl +:+ "c==3.0" +:+ nl.

(** A project with the one declared package [x], which neither the
    lock nor the graph knows, and an existing requirement for it whose
    line ends in a line feed. *)
Definition lone : PackageProcessor :=
  mkPackageProcessor (Pipfile.mk {["x" := "*"]} ∅) (PipfileLock.mk ∅ ∅)
                     false false false [].

Definition lone_existing : list Requirement :=
  [mkRequirement "x" ("x==1" +:+ nl)].

End Files.

(** ** Facts about the string primitives *)

Section string_facts.

Lemma string_app_nil_l (s : string) : "" +:+ s = s.
Proof. reflexivity. Qed.

Lemma string_app_cons (c : ascii) (s t : string) :
  String c s +:+ t = String c (s +:+ t).
Proof. reflexivity. Qed.

Lemma string_app_nil_r (s : string) : s +:+ "" = s.
Proof. induction s as [|c s IH]; [done|]. by rewrite string_app_cons, IH. Qed.

Lemma string_app_assoc (s t u : string) : (s +:+ t) +:+ u = s +:+ (t +:+ u).
Proof.
  induction s as [|c s IH]; [done|]. by rewrite !string_app_cons, IH.
Qed.

Lemma is_nl_true (c : ascii) : Str.is_nl c = true ↔ c = Str.nl.
Proof. unfold Str.is_nl. by rewrite bool_decide_eq_true. Qed.

Lemma is_nl_false (c : ascii) : Str.is_nl c = false ↔ c ≠ Str.nl.
Proof. unfold Str.is_nl. by rewrite bool_decide_eq_false. Qed.

Lemma strip_prefix_Some (p s r : string) :
  Str.strip_prefix p s = Some r ↔ s = p +:+ r.
Proof.
  revert s. induction p as [|a p IH]; intros s; simpl.
  - rewrite string_app_nil_l. naive_solver.
  - destruct s as [|b s]; [by rewrite string_app_cons|].
    rewrite string_app_cons. case_bool_decide as Hab.
    + subst b. rewrite IH. naive_solver.
    + split; [done|]. intros [= ? ?]. done.
Qed.

Lemma strip_prefix_app (p r : string) : Str.strip_prefix p (p +:+ r) = Some r.
Proof. by apply strip_prefix_Some. Qed.

Lemma one_line_app (s t : string) :
  Str.one_line (s +:+ t) = true ↔
  Str.one_line s = true ∧ Str.one_line t = true.
Proof.
  induction s as [|c s IH]; [rewrite string_app_nil_l; naive_solver|].
  rewrite string_app_cons. simpl. rewrite !andb_true_iff, IH. naive_solver.
Qed.

Lemma dot_star_sound (s p r : string) :
  Str.dot_star s = (p, r) →
  s = p +:+ r ∧ Str.one_line p = true ∧
  (r = "" ∨ ∃ r', r = String Str.nl r').
Proof.
  revert p r. induction s as [|c s IH]; intros p r; simpl.
  - intros [= <- <-]. auto.
  - destruct (Str.is_nl c) eqn:Hc.
    + intros [= <- <-]. apply is_nl_true in Hc as ->. eauto.
    + destruct (Str.dot_star s) as [p' r'] eqn:Hs. intros [= <- <-].
      destruct (IH _ _ eq_refl) as (-> & Hp & Hr).
      rewrite string_app_cons. simpl. rewrite Hc, Hp. auto.
Qed.

Lemma dot_star_app (p t : string) :
  Str.one_line p = true → Spec.line_end t → Str.dot_star (p +:+ t) = (p, t).
Proof.
  intros Hp Ht. induction p as [|c p IH].
  - rewrite string_app_nil_l. by destruct Ht as [-> | ->].
  - simpl in Hp. apply andb_true_iff in Hp as [Hc Hp].
    apply negb_true_iff in Hc. rewrite string_app_cons. simpl.
    by rewrite Hc, (IH Hp).
Qed.

(** A one-line text followed by a line end splits in one way only. *)
Lemma line_end_unique (p q t u : string) :
  Str.one_line p = true → Str.one_line q = true →
  Spec.line_end t → Spec.line_end u →
  p +:+ t = q +:+ u → p = q ∧ t = u.
Proof.
  intros Hp Hq Ht Hu Heq.
  pose proof (dot_star_app p t Hp Ht) as H1.
  pose proof (dot_star_app q u Hq Hu) as H2.
  rewrite Heq, H2 in H1. by injection H1.
Qed.

Lemma rstrip_app_newlines (s : string) :
  ∃ k, s = Str.rstrip s +:+ Spec.newlines k.
Proof.
  induction s as [|c s [k IH]]; [by exists 0|]. simpl.
  destruct (Str.rstrip s) as [|d r] eqn:Hr.
  - destruct (Str.is_nl c) eqn:Hc.
    + apply is_nl_true in Hc as ->. exists (S k). simpl.
      rewrite string_app_nil_l in *. by rewrite <- IH.
    + exists k. rewrite !string_app_cons. by rewrite <- IH.
  - exists k. rewrite string_app_cons. by rewrite <- IH.
Qed.

Lemma rstrip_no_trailing_nl (s u : string) :
  Str.rstrip s ≠ u +:+ String Str.nl "".
Proof.
  revert u. induction s as [|c s IH]; intros u; simpl.
  - by destruct u.
  - destruct (Str.rstrip s) as [|d r] eqn:Hr.
    + destruct (Str.is_nl c) eqn:Hc; [by destruct u|].
      apply is_nl_false in Hc.
      destruct u as [|c' [|c'' u]];
        rewrite ?string_app_cons, ?string_app_nil_l; congruence.
    + destruct u as [|c' u]; rewrite ?string_app_cons, ?string_app_nil_l;
        [congruence|].
      intros [= -> Hu]. by apply (IH u).
Qed.

Lemma rstrip_one_line (s : string) : Str.one_line s = true → Str.rstrip s = s.
Proof.
  induction s as [|c s IH]; [done|]. simpl.
  intros [Hc Hs]%andb_true_iff. apply negb_true_iff in Hc.
  rewrite (IH Hs), Hc. by destruct s.
Qed.

End string_facts.

(** ** The pattern matcher against the language of the pattern *)

Section git_parser_facts.

Lemma package_group_Some (s p : string) :
  GitParser.package_group s = Some p ↔
  ∃ t, Spec.line_end t ∧ Str.one_line p = true ∧ s = p +:+ t.
Proof.
  unfold GitParser.package_group. split.
  - destruct (Str.dot_star s) as [p' r] eqn:Hs.
    apply dot_star_sound in Hs as (-> & Hp & _).
    case_bool_decide as Hr; [|done]. intros [= ->]. by exists r.
  - intros (t & Ht & Hp & ->). rewrite (dot_star_app p t Hp Ht).
    by rewrite bool_decide_eq_true_2.
Qed.

(** What the attempt at the current position yields. *)
Lemma here_Some (s p : string) :
  Str.strip_prefix "#egg=" s ≫= GitParser.package_group = Some p ↔
  ∃ t, Spec.line_end t ∧ Str.one_line p = true ∧ s = "#egg=" +:+ p +:+ t.
Proof.
  rewrite bind_Some. split.
  - intros (r & ->%strip_prefix_Some & Hr).
    apply package_group_Some in Hr as (t & ? & ? & ->). eauto.
  - intros (t & ? & ? & ->). exists (p +:+ t). split.
    + apply strip_prefix_app.
    + apply package_group_Some. eauto.
Qed.

Lemma egg_tail_cons (c : ascii) (s : string) :
  GitParser.egg_tail (String c s) =
  if Str.is_nl c
  then Str.strip_prefix "#egg=" (String c s) ≫= GitParser.package_group
  else match GitParser.egg_tail s with
       | Some p => Some p
       | None =>
           Str.strip_prefix "#egg=" (String c s) ≫= GitParser.package_group
       end.
Proof. reflexivity. Qed.

(** Every split of [s] around an [#egg=] makes the matcher succeed. *)
Lemma egg_tail_complete (x p t : string) :
  Str.one_line x = true → Str.one_line p = true → Spec.line_end t →
  is_Some (GitParser.egg_tail (x +:+ "#egg=" +:+ p +:+ t)).
Proof.
  intros Hx Hp Ht. induction x as [|c x IH].
  - rewrite string_app_nil_l.
    assert (Str.strip_prefix "#egg=" ("#egg=" +:+ p +:+ t)
              ≫= GitParser.package_group = Some p) as Hhere
      by (apply here_Some; eauto).
    rewrite (string_app_cons "#" "egg="), egg_tail_cons.
    change (Str.is_nl "#") with false. cbv iota.
    rewrite <- (string_app_cons "#" "egg=").
    destruct (GitParser.egg_tail _); [done|]. by rewrite Hhere.
  - simpl in Hx. apply andb_true_iff in Hx as [Hc Hx].
    apply negb_true_iff in Hc. rewrite string_app_cons, egg_tail_cons, Hc.
    destruct (IH Hx) as [q ->]. done.
Qed.

(** A success of the matcher is a split of [s] around its last
    [#egg=]. *)
Lemma egg_tail_sound (s p : string) :
  GitParser.egg_tail s = Some p →
  ∃ x t, Str.one_line x = true ∧ Str.one_line p = true ∧
         Spec.line_end t ∧ ¬ Str.occurs "#egg=" p ∧
         s = x +:+ "#egg=" +:+ p +:+ t.
Proof.
  revert p. induction s as [|c s IH]; intros p.
  - simpl. done.
  - assert (Str.strip_prefix "#egg=" (String c s)
              ≫= GitParser.package_group = Some p →
            GitParser.egg_tail s = None →
            ∃ x t, Str.one_line x = true ∧ Str.one_line p = true ∧
                   Spec.line_end t ∧ ¬ Str.occurs "#egg=" p ∧
                   String c s = x +:+ "#egg=" +:+ p +:+ t) as Hhere.
    { intros (t & Ht & Hp & Heq)%here_Some Hnone.
      exists "", t. repeat split; [done..| |done].
      intros (a & b & ->).
      rewrite string_app_cons in Heq. injection Heq as -> ->.
      apply one_line_app in Hp as [Ha [_ Hb]%one_line_app].
      destruct (egg_tail_complete ("egg=" +:+ a) b t) as [q Hq];
        [by apply one_line_app|done..|].
      rewrite !string_app_assoc in Hq. rewrite !string_app_assoc in Hnone.
      by rewrite Hq in Hnone. }
    rewrite egg_tail_cons. destruct (Str.is_nl c) eqn:Hc.
    + intros (t & _ & _ & Heq)%here_Some.
      apply is_nl_true in Hc. rewrite string_app_cons in Heq. by simplify_eq.
    + destruct (GitParser.egg_tail s) as [q|] eqn:Hs; [|by auto].
      intros [= ->]. destruct (IH _ eq_refl) as (x & t & ? & ? & ? & ? & ->).
      exists (String c x), t. rewrite string_app_cons. simpl. rewrite Hc.
      by repeat split.
Qed.

(** No [#egg=] begins inside [egg=]. *)
Lemma egg_overlap (x u v : string) :
  "egg=" +:+ u = x +:+ "#egg=" +:+ v → ∃ x', x = "egg=" +:+ x'.
Proof.
  intros Heq.
  do 4 (destruct x as [|? x];
        repeat (rewrite string_app_nil_l in Heq
                || rewrite string_app_cons in Heq);
        [by simplify_eq|injection Heq as <- Heq]).
  by exists x.
Qed.

(** The matcher yields the text after the last [#egg=]. *)
Lemma egg_tail_last (x p t : string) :
  Str.one_line x = true → Str.one_line p = true → Spec.line_end t →
  ¬ Str.occurs "#egg=" p →
  GitParser.egg_tail (x +:+ "#egg=" +:+ p +:+ t) = Some p.
Proof.
  intros Hx Hp Ht Hlast. induction x as [|c x IH].
  - rewrite string_app_nil_l.
    rewrite (string_app_cons "#" "egg="), egg_tail_cons.
    change (Str.is_nl "#") with false. cbv iota.
    rewrite <- (string_app_cons "#" "egg=").
    destruct (GitParser.egg_tail _) as [q|] eqn:Hq.
    + exfalso. apply egg_tail_sound in Hq as (y & u & Hy & Hq & Hu & _ & Heq).
      destruct (egg_overlap _ _ _ Heq) as [y' ->].
      rewrite !string_app_assoc in Heq. apply (inj (String.app "egg=")) in Heq.
      apply one_line_app in Hy as [_ Hy'].
      rewrite <- !string_app_assoc in Heq.
      apply line_end_unique in Heq as [-> _]; [|done| |done..].
      * apply Hlast. exists y', q. by rewrite string_app_assoc.
      * rewrite !one_line_app. done.
    + apply here_Some. eauto.
  - simpl in Hx. apply andb_true_iff in Hx as [Hc Hx].
    apply negb_true_iff in Hc.
    by rewrite string_app_cons, egg_tail_cons, Hc, (IH Hx).
Qed.

Lemma git_tail_Some (s p : string) :
  GitParser.git_tail s = Some p ↔
  ∃ x t, Str.one_line x = true ∧ Str.one_line p = true ∧
         Spec.line_end t ∧ ¬ Str.occurs "#egg=" p ∧
         s = "git+" +:+ x +:+ "#egg=" +:+ p +:+ t.
Proof.
  unfold GitParser.git_tail. rewrite bind_Some. split.
  - intros (r & ->%strip_prefix_Some & Hr).
    apply egg_tail_sound in Hr as (x & t & ? & ? & ? & ? & ->).
    by exists x, t.
  - intros (x & t & ? & ? & ? & ? & ->).
    exists (x +:+ "#egg=" +:+ p +:+ t). split.
    + apply strip_prefix_app.
    + by apply egg_tail_last.
Qed.

(** The matcher decides the form, and finds the egg fragment. *)
Lemma search_Some (line name : string) :
  GitParser.search line = Some name ↔ Spec.vcs_form line name.
Proof.
  unfold GitParser.search, Spec.vcs_form. split.
  - destruct (Str.strip_prefix "-e " line ≫= GitParser.git_tail)
      as [q|] eqn:He.
    + intros [= ->]. apply bind_Some in He as (r & ->%strip_prefix_Some & Hr).
      apply git_tail_Some in Hr as (x & t & ? & ? & ? & ? & ->).
      exists "-e ", x, t. auto 10.
    + intros (x & t & ? & ? & ? & ? & ->)%git_tail_Some.
      exists "", x, t. auto 10.
  - intros (e & x & t & [-> | ->] & Ht & Hx & Hp & Hlast & ->).
    + rewrite string_app_nil_l.
      assert (GitParser.git_tail ("git+" +:+ x +:+ "#egg=" +:+ name +:+ t)
              = Some name) as -> by (apply git_tail_Some; by exists x, t).
      by change (Str.strip_prefix "-e " ("git+" +:+ _)) with (@None string).
    + rewrite strip_prefix_app. simpl.
      assert (GitParser.git_tail ("git+" +:+ x +:+ "#egg=" +:+ name +:+ t)
              = Some name) as -> by (apply git_tail_Some; by exists x, t).
      done.
Qed.

Lemma search_is_Some (line : string) :
  is_Some (GitParser.search line) ↔ Spec.vcs_pattern line.
Proof.
  split.
  - intros [name (e & x & t & ? & ? & ? & ? & _ & ->)%search_Some].
    by exists e, x, name, t.
  - intros (e & x & p & t & He & Ht & Hx & Hp & ->).
    assert (is_Some (GitParser.git_tail
                       ("git+" +:+ x +:+ "#egg=" +:+ p +:+ t))) as [q Hq].
    { unfold GitParser.git_tail. rewrite strip_prefix_app. simpl.
      by apply egg_tail_complete. }
    unfold GitParser.search. destruct He as [-> | ->].
    + rewrite string_app_nil_l, Hq.
      by change (Str.strip_prefix "-e " ("git+" +:+ _)) with (@None string).
    + rewrite strip_prefix_app. simpl. by rewrite Hq.
Qed.

End git_parser_facts.

(** ** Splitting at the first separator *)

Section split_facts.

Lemma split_head_cons (sep : string) (c : ascii) (s : string) :
  Str.strip_prefix sep (String c s) = None →
  Str.split_head sep (String c s) = String c (Str.split_head sep s).
Proof. intros H. simpl. destruct sep; [done|]. simpl in *. by rewrite H. Qed.

Lemma split_head_here (sep s r : string) :
  Str.strip_prefix sep s = Some r → Str.split_head sep s = "".
Proof. intros H. destruct s; simpl; by rewrite H. Qed.

(** Without an occurrence of the separator nothing is cut off. *)
Lemma split_head_absent (sep s : string) :
  ¬ Str.occurs sep s → Str.split_head sep s = s.
Proof.
  induction s as [|c s IH]; intros Hno.
  - simpl. by destruct (Str.strip_prefix sep "").
  - destruct (Str.strip_prefix sep (String c s)) as [r|] eqn:Hr.
    + exfalso. apply Hno. exists "", r. by apply strip_prefix_Some in Hr.
    + rewrite split_head_cons by done. f_equal. apply IH.
      intros (a & b & ->). apply Hno. by exists (String c a), b.
Qed.

(** With an occurrence, the result is what stands before the first. *)
Lemma split_head_first (sep s : string) :
  Str.occurs sep s → Spec.before_first sep s (Str.split_head sep s).
Proof.
  induction s as [|c s IH]; intros (a & b & Hs).
  - destruct (Str.strip_prefix sep "") as [r|] eqn:Hr.
    + rewrite (split_head_here _ _ _ Hr). exists r. split.
      * by apply strip_prefix_Some in Hr.
      * intros; simpl; lia.
    + destruct a; [|done]. rewrite string_app_nil_l in Hs.
      apply strip_prefix_Some in Hs. congruence.
  - destruct (Str.strip_prefix sep (String c s)) as [r|] eqn:Hr.
    + rewrite (split_head_here _ _ _ Hr). exists r. split.
      * by apply strip_prefix_Some in Hr.
      * intros; simpl; lia.
    + rewrite split_head_cons by done.
      assert (∀ a' b', String c s = a' +:+ sep +:+ b' →
                       ∃ a'', a' = String c a'' ∧ s = a'' +:+ sep +:+ b')
        as Hcons.
      { intros [|c' a'] b' Heq.
        - rewrite string_app_nil_l in Heq. apply strip_prefix_Some in Heq.
          congruence.
        - rewrite string_app_cons in Heq. injection Heq as <- ->. eauto. }
      destruct (Hcons a b Hs) as (a0 & -> & Hs').
      destruct IH as (b0 & Hb0 & Hmin); [by exists a0, b|].
      exists b0. split.
      * rewrite string_app_cons. by f_equal.
      * intros a' b' Heq. destruct (Hcons a' b' Heq) as (a1 & -> & Heq').
        simpl. apply Hmin in Heq'. lia.
Qed.

End split_facts.

(** ** Parsing a line of a requirements file *)

Section parsing.

Lemma parse_requirement_line_vcs (line name : string) :
  Spec.vcs_form line name →
  package_name (parse_requirement_line line) = name.
Proof.
  intros Hform. unfold parse_requirement_line.
  rewrite (proj2 (search_Some line name) Hform). simpl.
  destruct Hform as (_ & _ & _ & _ & _ & _ & Hname & _).
  by apply rstrip_one_line.
Qed.

Lemma parse_requirement_line_plain (line : string) :
  ¬ Spec.vcs_pattern line →
  package_name (parse_requirement_line line)
  = Str.split_head "==" (Str.rstrip line).
Proof.
  intros Hno. unfold parse_requirement_line.
  destruct (GitParser.search line) as [p|] eqn:Hp; [|done].
  exfalso. apply Hno, search_is_Some. by exists p.
Qed.

Lemma parse_requirement_line_line (line : string) :
  requirement_line (parse_requirement_line line) = Str.rstrip line.
Proof. unfold parse_requirement_line. by destruct (GitParser.search line). Qed.

(** C6: for every line, [parse_requirement_line] keeps the line without
    its trailing line feeds as [requirement_line]; when the line has the
    VCS form its [package_name] is the egg fragment (the text after the
    last [#egg=], which every line of the pattern has); when the line is
    not of the pattern, the [package_name] is what stands before the
    first [==] of the stripped line, and the whole stripped line when it
    has no [==]. The two lines of the specification parse to [pkg] and
    [foo]. *)
Theorem parse_requirement_line_package_name (line : string) :
  (requirement_line (parse_requirement_line line) = Str.rstrip line
   ∧ (∃ k, line = Str.rstrip line +:+ Spec.newlines k)
   ∧ ∀ u, Str.rstrip line ≠ u +:+ String Str.nl "")
  ∧ (∀ name, Spec.vcs_form line name →
       package_name (parse_requirement_line line) = name)
  ∧ (Spec.vcs_pattern line ↔ ∃ name, Spec.vcs_form line name)
  ∧ (¬ Spec.vcs_pattern line →
       (Str.occurs "==" (Str.rstrip line) →
          Spec.before_first "==" (Str.rstrip line)
            (package_name (parse_requirement_line line)))
       ∧ (¬ Str.occurs "==" (Str.rstrip line) →
          package_name (parse_requirement_line line) = Str.rstrip line))
  ∧ package_name
      (parse_requirement_line "-e git+https://x/y.git@abc#egg=pkg") = "pkg"
  ∧ package_name (parse_requirement_line "foo==1.2.3") = "foo".
Proof.
  split; [|split; [|split; [|split; [|split]]]].
  - split; [apply parse_requirement_line_line|].
    split; [apply rstrip_app_newlines|apply rstrip_no_trailing_nl].
  - apply parse_requirement_line_vcs.
  - rewrite <- search_is_Some. unfold is_Some.
    by setoid_rewrite search_Some.
  - intros Hno. rewrite (parse_requirement_line_plain line Hno). split.
    + apply split_head_first.
    + apply split_head_absent.
  - reflexivity.
  - reflexivity.
Qed.

End parsing.

(** ** Requirements built from lock entries *)

Section lock_entries.

Lemma truthy_Some (field : option string) (v : string) :
  truthy field = Some v ↔ Spec.present field v.
Proof.
  unfold Spec.present. destruct field as [[|c s]|]; simpl.
  - split; [done|]. by intros [[= <-] ?].
  - split; [by intros [= <-]|]. by intros [[= <-] _].
  - split; [done|]. by intros [? _].
Qed.

Lemma truthy_None (field : option string) :
  truthy field = None ↔ Spec.blank field.
Proof.
  unfold Spec.blank. destruct field as [[|c s]|]; simpl.
  - split; auto.
  - split; [done|]. by intros [|].
  - split; auto.
Qed.

(** C7, amended: for every package name and lock entry, [from_data]
    keeps the name and follows the precedence: a version that is there
    and not empty gives the name followed by the version; otherwise a
    git URL that is there and not empty gives the VCS form, with the
    prefix [-e ] exactly when [editable] is true and the suffix [@ref]
    exactly when the ref is there and not empty; otherwise the line is
    the bare name. The two entries of the specification give
    [foo==2.0] and [-e git+https://x@main#egg=bar]. *)
Theorem from_data_precedence (name : string) (e : LockEntry) :
  package_name (from_data name e) = name
  ∧ (∀ v, Spec.present (version e) v →
       requirement_line (from_data name e) = name +:+ v)
  ∧ (Spec.blank (version e) → ∀ url, Spec.present (git e) url →
       ∃ prefix suffix,
         requirement_line (from_data name e)
         = prefix +:+ "git+" +:+ url +:+ suffix +:+ "#egg=" +:+ name
         ∧ (editable e = Some true → prefix = "-e ")
         ∧ (editable e ≠ Some true → prefix = "")
         ∧ (∀ r, Spec.present (ref e) r → suffix = "@" +:+ r)
         ∧ (Spec.blank (ref e) → suffix = ""))
  ∧ (Spec.blank (version e) → Spec.blank (git e) →
       requirement_line (from_data name e) = name)
  ∧ requirement_line (from_data "foo" (Examples.pinned "==2.0")) = "foo==2.0"
  ∧ requirement_line (from_data "bar" Examples.git_entry)
    = "-e git+https://x@main#egg=bar".
Proof.
  split; [|split; [|split; [|split; [|split]]]].
  - unfold from_data. by repeat case_match.
  - intros v Hv%truthy_Some. unfold from_data. by rewrite Hv.
  - intros Hver%truthy_None url Hurl%truthy_Some.
    unfold from_data. rewrite Hver, Hurl. simpl. eexists _, _.
    split; [reflexivity|]. repeat split.
    + by intros ->.
    + intros Hne. by destruct (editable e) as [[|]|].
    + intros r Hr%truthy_Some. by rewrite Hr.
    + intros Hr%truthy_None. by rewrite Hr.
  - intros Hver%truthy_None Hgit%truthy_None.
    unfold from_data. by rewrite Hver, Hgit.
  - reflexivity.
  - reflexivity.
Qed.

(** C7 as stated fails on a version that is there but empty: the entry
    falls through to its git URL. *)
Lemma from_data_empty_version :
  version Examples.empty_version_entry = Some ""
  ∧ requirement_line (from_data "foo" Examples.empty_version_entry)
    = "git+https://x#egg=foo"
  ∧ requirement_line (from_data "foo" Examples.empty_version_entry)
    ≠ "foo" +:+ "".
Proof. by repeat split. Qed.

End lock_entries.

(** ** Parsing back the line of a lock entry *)

Section roundtrip.

Lemma plain_name_app (s t : string) :
  Spec.plain_name (s +:+ t) = Spec.plain_name s && Spec.plain_name t.
Proof.
  induction s as [|c s IH]; [done|].
  rewrite string_app_cons. simpl. by rewrite IH, andb_assoc.
Qed.

Lemma plain_name_one_line (s : string) :
  Spec.plain_name s = true → Str.one_line s = true.
Proof.
  induction s as [|c s IH]; [done|]. simpl. unfold Spec.plain_char.
  rewrite !andb_true_iff. naive_solver.
Qed.

(** A text splits in one way only into a plain prefix and a character
    that is not plain. *)
Lemma plain_split_unique (u u' : string) (c c' : ascii) (r r' : string) :
  Spec.plain_name u = true → Spec.plain_name u' = true →
  Spec.plain_char c = false → Spec.plain_char c' = false →
  u +:+ String c r = u' +:+ String c' r' → c = c'.
Proof.
  revert u'. induction u as [|a u IH]; intros [|a' u'] Hu Hu' Hc Hc' Heq;
    rewrite ?string_app_nil_l, ?string_app_cons in Heq; simplify_eq/=.
  - done.
  - apply andb_true_iff in Hu' as [? _]. congruence.
  - apply andb_true_iff in Hu as [? _]. congruence.
  - apply andb_true_iff in Hu as [_ Hu]. apply andb_true_iff in Hu' as [_ Hu'].
    by eapply IH.
Qed.

(** A plain name is not of the pattern of [git_parser], nor is it when
    something beginning with [=] follows. *)
Lemma plain_not_vcs (name rest : string) :
  Spec.plain_name name = true →
  rest = "" ∨ (∃ w, rest = String "=" w) →
  ¬ Spec.vcs_pattern (name +:+ rest).
Proof.
  intros Hname Hrest (e & x & p & t & He & _ & _ & _ & Heq).
  assert (∃ u, Spec.plain_name u = true ∧
               name +:+ rest = u +:+ String "+" (x +:+ "#egg=" +:+ p +:+ t))
    as (u & Hu & Heq').
  { destruct He as [-> | ->]; [by exists "git"|by exists "-e git"]. }
  clear Heq. destruct Hrest as [-> | [w ->]].
  - rewrite string_app_nil_r in Heq'. rewrite Heq', plain_name_app in Hname.
    apply andb_true_iff in Hname as [_ Hname]. done.
  - by apply plain_split_unique in Heq'.
Qed.

Lemma rstrip_cons (c : ascii) (s : string) :
  Str.is_nl c = false → Str.rstrip (String c s) = String c (Str.rstrip s).
Proof. intros Hc. simpl. rewrite Hc. by destruct (Str.rstrip s). Qed.

Lemma rstrip_plain_app (name : string) (c : ascii) (w : string) :
  Spec.plain_name name = true → Str.is_nl c = false →
  Str.rstrip (name +:+ String c w) = name +:+ String c (Str.rstrip w).
Proof.
  intros Hname Hc. induction name as [|a name IH].
  - rewrite !string_app_nil_l. by apply rstrip_cons.
  - simpl in Hname. apply andb_true_iff in Hname as [Ha Hname].
    unfold Spec.plain_char in Ha. rewrite !andb_true_iff in Ha.
    destruct Ha as [[Ha%negb_true_iff _] _].
    by rewrite !string_app_cons, rstrip_cons, (IH Hname).
Qed.

Lemma split_head_plain (name w : string) :
  Spec.plain_name name = true →
  Str.split_head "==" (name +:+ "==" +:+ w) = name.
Proof.
  intros Hname. induction name as [|a name IH].
  - rewrite string_app_nil_l.
    by apply (split_head_here _ _ w), strip_prefix_app.
  - simpl in Hname. apply andb_true_iff in Hname as [Ha Hname].
    rewrite string_app_cons, split_head_cons, (IH Hname); [done|].
    simpl. case_bool_decide as Heq; [|done]. by subst a.
Qed.

Lemma plain_no_occurrence (sep name : string) :
  Spec.plain_name sep = false → Spec.plain_name name = true →
  ¬ Str.occurs sep name.
Proof.
  intros Hsep Hname (a & b & ->). rewrite !plain_name_app, Hsep in Hname.
  by rewrite andb_false_r in Hname.
Qed.

(** C8, amended: for every package name without line feed, [=] and [+]
    and every lock entry whose version, when it counts, begins with
    [==] and whose git URL and ref have no line feed, parsing the line
    of the Requirement built from the entry gives the package name
    back. *)
Theorem from_data_parse_package_name (name : string) (e : LockEntry) :
  Spec.plain_name name = true →
  Spec.pinned_version e = true →
  Spec.one_line_field (git e) = true →
  Spec.one_line_field (ref e) = true →
  package_name
    (parse_requirement_line (requirement_line (from_data name e))) = name.
Proof.
  intros Hname Hver Hgit Href. unfold from_data, Spec.pinned_version in *.
  destruct (truthy (version e)) as [v|] eqn:Hv.
  - apply bool_decide_eq_true in Hver as [w ->%strip_prefix_Some].
    simpl. rewrite parse_requirement_line_plain.
    + change ("==" +:+ w) with (String "=" (String "=" w)).
      rewrite rstrip_plain_app by done.
      rewrite (rstrip_cons "=") by done.
      by apply (split_head_plain name (Str.rstrip w)).
    + apply plain_not_vcs; eauto.
  - destruct (truthy (git e)) as [url|] eqn:Hurl.
    + apply truthy_Some in Hurl as [Hurl _]. rewrite Hurl in Hgit.
      simpl. apply parse_requirement_line_vcs.
      set (suffix := match truthy (ref e) with
                     | Some git_ref => "@" +:+ git_ref
                     | None => ""
                     end).
      assert (Str.one_line suffix = true) as Hsuffix.
      { subst suffix. destruct (truthy (ref e)) as [r|] eqn:Hr; [|done].
        apply truthy_Some in Hr as [Hr _]. by rewrite Hr in Href. }
      exists (match editable e with Some true => "-e " | _ => "" end),
             (url +:+ suffix), "".
      split; [by destruct (editable e) as [[|]|]; auto|].
      split; [by left|]. split; [by apply one_line_app|].
      split; [by apply plain_name_one_line|].
      split; [by apply plain_no_occurrence|].
      by rewrite string_app_nil_r, !string_app_assoc.
    + simpl. rewrite parse_requirement_line_plain.
      * rewrite rstrip_one_line by by apply plain_name_one_line.
        apply split_head_absent. by apply plain_no_occurrence.
      * rewrite <- (string_app_nil_r name). apply plain_not_vcs; auto.
Qed.

(** The round trip on the version entry of the specification. *)
Lemma from_data_parse_package_name_foo :
  package_name
    (parse_requirement_line
       (requirement_line (from_data "foo" (Examples.pinned "==2.0"))))
  = "foo".
Proof. by apply from_data_parse_package_name. Defined.

(** C8 as stated fails on a version that does not begin with [==]. *)
Lemma from_data_parse_range_version :
  package_name
    (parse_requirement_line
       (requirement_line (from_data "foo" (Examples.pinned ">=1.0"))))
  = "foo>=1.0"
  ∧ package_name
      (parse_requirement_line
         (requirement_line (from_data "foo" (Examples.pinned ">=1.0"))))
    ≠ "foo".
Proof. by split. Qed.

End roundtrip.

(** ** The maps and sets of [generate_requirements] *)

Section maps.

Implicit Types (self : PackageProcessor) (l : list Requirement).

Lemma requirements_snoc l r :
  requirements (l ++ [r]) = <[package_name r := r]> (requirements l).
Proof. unfold requirements. by rewrite foldl_snoc. Qed.

Lemma dom_requirements l :
  dom (requirements l) = list_to_set (package_name <$> l).
Proof.
  induction l as [|r l IH] using rev_ind; [apply dom_empty_L|].
  rewrite requirements_snoc, dom_insert_L, IH, fmap_app, list_to_set_app_L.
  simpl. set_solver.
Qed.

Lemma elem_of_dom_requirements l n :
  n ∈ dom (requirements l) ↔ ∃ r, r ∈ l ∧ package_name r = n.
Proof.
  rewrite dom_requirements, elem_of_list_to_set, list_elem_of_fmap.
  naive_solver.
Qed.

(** The requirement that stays under a name is the last of that name. *)
Lemma requirements_lookup_last l1 r l2 :
  (∀ r', r' ∈ l2 → package_name r' ≠ package_name r) →
  requirements (l1 ++ r :: l2) !! package_name r = Some r.
Proof.
  induction l2 as [|x l2 IH] using rev_ind; intros Hlater.
  - by rewrite requirements_snoc, lookup_insert_eq.
  - rewrite app_comm_cons, (assoc_L (++)), requirements_snoc.
    rewrite lookup_insert_ne by (apply Hlater; set_solver).
    apply IH. intros r' Hr'. apply Hlater. set_solver.
Qed.

Lemma requirements_lookup_unique l r :
  r ∈ l → (∀ r', r' ∈ l → package_name r' = package_name r → r' = r) →
  requirements l !! package_name r = Some r.
Proof.
  intros (l1 & l2 & -> & Hnot)%list_elem_of_split_r Huniq.
  apply requirements_lookup_last. intros r' Hr' Heq.
  apply Hnot. rewrite <- (Huniq r'); [done|set_solver|done].
Qed.

(** The order of the list does not show in the names. *)
Lemma dom_requirements_perm l l' :
  l ≡ₚ l' → dom (requirements l) = dom (requirements l').
Proof. intros Hperm. rewrite !dom_requirements. by rewrite Hperm. Qed.

Lemma section_lookup (section : gmap string LockEntry) n :
  PipfileLock.requirements_of_section section !! n
  = from_data n <$> section !! n.
Proof.
  unfold PipfileLock.requirements_of_section. rewrite map_lookup_imap.
  by destruct (section !! n).
Qed.

(** [version_map]: the lock first, the existing requirements for the
    names the lock does not have. *)
Lemma version_map_lookup self l n :
  version_map self l !! n
  = match lock_map self !! n with
    | Some r => Some r
    | None => requirements l !! n
    end.
Proof.
  unfold version_map. rewrite lookup_union.
  by destruct (lock_map self !! n), (requirements l !! n).
Qed.

Lemma elem_of_generate_dependencies self names n :
  n ∈ generate_dependencies self names ↔
  n ∈ names
  ∨ ∃ r deps, r ∈ names ∧ dependency_map self !! r = Some deps ∧ n ∈ deps.
Proof.
  induction names as [|x names IH]; simpl.
  - set_solver.
  - rewrite elem_of_cons, elem_of_app, IH, elem_of_cons. split.
    + intros [->|[Hdeps|[?|(r & deps & ? & ? & ?)]]]; auto.
      * destruct (dependency_map self !! x) as [deps|] eqn:Hx; [|set_solver].
        right. exists x, deps. set_solver.
      * right. exists r, deps. set_solver.
    + intros [[->|?]|(r & deps & [->|?]%elem_of_cons & Hr & ?)]; auto.
      * rewrite Hr. auto.
      * right. right. right. eauto.
Qed.

Lemma elem_of_reached self l n :
  n ∈ reached self l ↔
  n ∈ root_requirements self l
  ∨ ∃ r deps, r ∈ root_requirements self l
              ∧ dependency_map self !! r = Some deps ∧ n ∈ deps.
Proof.
  unfold reached.
  rewrite elem_of_list_to_set, elem_of_generate_dependencies.
  by setoid_rewrite elem_of_elements.
Qed.

Lemma full_dependencies_unfold self l :
  full_dependencies self l
  = if in_place self && negb (force self)
    then reached self l ∪ dom (requirements l)
    else reached self l.
Proof. reflexivity. Qed.

(** The set does not depend on the order in which the roots are
    visited. *)
Lemma generate_dependencies_perm self names names' :
  names ≡ₚ names' →
  list_to_set (C := gset string) (generate_dependencies self names)
  = list_to_set (generate_dependencies self names').
Proof.
  intros Hperm. apply set_eq. intros n.
  rewrite !elem_of_list_to_set, !elem_of_generate_dependencies.
  by setoid_rewrite Hperm.
Qed.

Lemma full_dependencies_perm self l l' :
  l ≡ₚ l' → full_dependencies self l = full_dependencies self l'.
Proof.
  intros Hperm. rewrite !full_dependencies_unfold. unfold reached.
  unfold root_requirements. by rewrite (dom_requirements_perm l l' Hperm).
Qed.

End maps.

(** ** Sorting the names and looking up their lines *)

Section output.

Implicit Types (self : PackageProcessor) (l : list Requirement).

Lemma sorted_perm (names : gset string) : sorted names ≡ₚ elements names.
Proof. apply merge_sort_Permutation. Qed.

Lemma elem_of_sorted (names : gset string) n : n ∈ sorted names ↔ n ∈ names.
Proof. by rewrite sorted_perm, elem_of_elements. Qed.

Lemma sorted_NoDup (names : gset string) : NoDup (sorted names).
Proof. rewrite sorted_perm. apply NoDup_elements. Qed.

Lemma sorted_StronglySorted (names : gset string) :
  StronglySorted String.le (sorted names).
Proof. apply (StronglySorted_merge_sort _). Qed.

(** Any duplicate-free ascending list of the names is the sorted one. *)
Lemma sorted_unique (names : gset string) (k : list string) :
  StronglySorted String.le k → NoDup k → (∀ n, n ∈ k ↔ n ∈ names) →
  k = sorted names.
Proof.
  intros Hk Hnd Hin. apply (StronglySorted_unique String.le); [done| |].
  - apply sorted_StronglySorted.
  - apply NoDup_Permutation; [done|apply sorted_NoDup|].
    intros n. by rewrite Hin, elem_of_sorted.
Qed.

Lemma generate_requirements_Some self l out :
  generate_requirements self l = Some out ↔
  Forall2 (Spec.line_of self l) (sorted (full_dependencies self l)) out.
Proof.
  unfold generate_requirements. rewrite mapM_Some.
  split; intros H; (eapply Forall2_impl; [exact H|]);
    intros n line; unfold Spec.line_of; rewrite fmap_Some;
    intros (r & ? & ?); by exists r.
Qed.

Lemma generate_requirements_None self l :
  generate_requirements self l = None ↔
  ∃ n, n ∈ full_dependencies self l ∧ version_map self l !! n = None.
Proof.
  unfold generate_requirements. rewrite mapM_None, Exists_exists.
  setoid_rewrite elem_of_sorted. by setoid_rewrite fmap_None.
Qed.

Lemma generate_requirements_line self l out n :
  generate_requirements self l = Some out → n ∈ full_dependencies self l →
  ∃ r, version_map self l !! n = Some r ∧ requirement_line r ∈ out.
Proof.
  intros Hout%generate_requirements_Some Hn%elem_of_sorted.
  apply list_elem_of_lookup in Hn as [i Hi].
  destruct (Forall2_lookup_l _ _ _ _ _ Hout Hi) as (line & Hline & r & ? & <-).
  exists r. split; [done|]. by eapply list_elem_of_lookup_2.
Qed.

End output.

(** ** What [generate_requirements] returns *)

Section reconciler.

Implicit Types (self : PackageProcessor) (l : list Requirement).

Lemma Forall2_and_l {A B} (P : A → B → Prop) (R : A → Prop) xs ys :
  Forall2 P xs ys → Forall R xs → Forall2 (λ x y, P x y ∧ R x) xs ys.
Proof.
  induction 1 as [|x y xs ys Hxy _ IH]; [constructor|].
  intros [Hx Hxs]%Forall_cons. constructor; auto.
Qed.

Lemma reached_nil self : reached self [] = ∅.
Proof.
  apply set_eq. intros n. rewrite elem_of_reached. unfold root_requirements.
  assert (dom (requirements []) = (∅ : gset string)) as ->
    by apply dom_empty_L.
  set_solver.
Qed.

(** C10: for every manifest, lock, graph and flags, an empty list of
    existing requirements gives the empty list. *)
Theorem generate_requirements_nil self :
  generate_requirements self [] = Some [].
Proof.
  apply generate_requirements_Some.
  assert (full_dependencies self [] = ∅) as ->.
  { rewrite full_dependencies_unfold, reached_nil.
    assert (dom (requirements []) = (∅ : gset string)) as ->
      by apply dom_empty_L.
    destruct (in_place self && negb (force self)); set_solver. }
  unfold sorted. rewrite elements_empty. constructor.
Qed.

(** C9: when a name of the final closure is not in the version map,
    [generate_requirements] fails; a returned list has one line for
    every name of the closure, none is left out. In the scenario run
    with dev packages included, [c] is such a name. *)
Theorem generate_requirements_fails_on_missing self l :
  ((∃ n, n ∈ full_dependencies self l ∧ version_map self l !! n = None) →
     generate_requirements self l = None)
  ∧ (∀ out, generate_requirements self l = Some out →
       length out = size (full_dependencies self l)
       ∧ ∀ n, n ∈ full_dependencies self l →
           ∃ r, version_map self l !! n = Some r ∧ requirement_line r ∈ out)
  ∧ ("c" ∈ full_dependencies (Examples.scenario false false true)
             Examples.scenario_existing
     ∧ version_map (Examples.scenario false false true)
         Examples.scenario_existing !! "c" = None
     ∧ generate_requirements (Examples.scenario false false true)
         Examples.scenario_existing = None).
Proof.
  split; [|split].
  - apply generate_requirements_None.
  - intros out Hout. split.
    + apply generate_requirements_Some, Forall2_length in Hout.
      rewrite <- Hout. unfold sorted, size, set_size. simpl.
      by rewrite merge_sort_Permutation.
    + intros n. by apply generate_requirements_line.
  - by vm_compute.
Qed.

(** C5: the lines returned stand in the ascending order of their package
    names, each name once, which leaves one order only; the names, and
    so the order, are the same for every rearrangement of the input
    list, and the set of names does not depend on the order in which the
    roots are visited. *)
Theorem generate_requirements_sorted self l out :
  generate_requirements self l = Some out →
  ∃ names,
    Forall2 (Spec.line_of self l) names out
    ∧ StronglySorted String.le names ∧ NoDup names
    ∧ (∀ n, n ∈ names ↔ n ∈ full_dependencies self l)
    ∧ (∀ k, StronglySorted String.le k → NoDup k →
            (∀ n, n ∈ k ↔ n ∈ full_dependencies self l) → k = names)
    ∧ (∀ l' out', l' ≡ₚ l → generate_requirements self l' = Some out' →
         Forall2 (Spec.line_of self l') names out')
    ∧ (∀ order, order ≡ₚ elements (root_requirements self l) →
         list_to_set (generate_dependencies self order) = reached self l).
Proof.
  intros Hout. exists (sorted (full_dependencies self l)).
  split; [by apply generate_requirements_Some|].
  split; [apply sorted_StronglySorted|].
  split; [apply sorted_NoDup|].
  split; [intros n; apply elem_of_sorted|].
  split; [apply sorted_unique|]. split.
  - intros l' out' Hperm Hout'.
    rewrite <- (full_dependencies_perm self l' l Hperm).
    by apply generate_requirements_Some.
  - intros order Hperm. by apply generate_dependencies_perm.
Qed.

(** The scenario of the specification, its input list turned around. *)
Lemma generate_requirements_sorted_scenario :
  ∃ names,
    Forall2 (Spec.line_of (Examples.scenario false false false)
               (reverse Examples.scenario_existing))
      names ["a==1.0"; "b==2.0"; "c==3.0"]
    ∧ StronglySorted String.le names ∧ NoDup names
    ∧ (∀ n, n ∈ names ↔
            n ∈ full_dependencies (Examples.scenario false false false)
                  (reverse Examples.scenario_existing))
    ∧ (∀ k, StronglySorted String.le k → NoDup k →
            (∀ n, n ∈ k ↔
                  n ∈ full_dependencies (Examples.scenario false false false)
                        (reverse Examples.scenario_existing)) →
            k = names)
    ∧ (∀ l' out', l' ≡ₚ reverse Examples.scenario_existing →
         generate_requirements (Examples.scenario false false false) l'
         = Some out' →
         Forall2 (Spec.line_of (Examples.scenario false false false) l')
           names out')
    ∧ (∀ order,
         order ≡ₚ elements (root_requirements
                              (Examples.scenario false false false)
                              (reverse Examples.scenario_existing)) →
         list_to_set (generate_dependencies
                        (Examples.scenario false false false) order)
         = reached (Examples.scenario false false false)
             (reverse Examples.scenario_existing)).
Proof.
  apply (generate_requirements_sorted (Examples.scenario false false false)
           (reverse Examples.scenario_existing)).
  vm_compute. reflexivity.
Defined.

(** C4: when [force] is set or [in_place] is not, every line returned
    is the line of a name that is a root, or a dependency the graph
    lists for a root, or a name declared in the environment. *)
Theorem generate_requirements_pruned self l out :
  force self = true ∨ in_place self = false →
  generate_requirements self l = Some out →
  Forall2
    (λ n line,
       Spec.line_of self l n line
       ∧ (n ∈ root_requirements self l
          ∨ (∃ r deps, r ∈ root_requirements self l
                       ∧ dependency_map self !! r = Some deps ∧ n ∈ deps)
          ∨ n ∈ dom (environment self)))
    (sorted (full_dependencies self l)) out.
Proof.
  intros Hmode Hout%generate_requirements_Some.
  apply Forall2_and_l; [done|]. apply Forall_forall. intros n Hn%elem_of_sorted.
  rewrite full_dependencies_unfold in Hn.
  assert (in_place self && negb (force self) = false) as Hstrict
    by (destruct Hmode as [-> | ->]; by rewrite ?andb_false_r).
  rewrite Hstrict in Hn. apply elem_of_reached in Hn as [?|?]; auto.
Qed.

(** The strict run of the scenario with the orphan in its input. *)
Lemma generate_requirements_pruned_scenario :
  Forall2
    (λ n line,
       Spec.line_of (Examples.scenario false false false)
         (Examples.orphan :: Examples.scenario_existing) n line
       ∧ (n ∈ root_requirements (Examples.scenario false false false)
                (Examples.orphan :: Examples.scenario_existing)
          ∨ (∃ r deps,
               r ∈ root_requirements (Examples.scenario false false false)
                     (Examples.orphan :: Examples.scenario_existing)
               ∧ dependency_map (Examples.scenario false false false) !! r
                 = Some deps
               ∧ n ∈ deps)
          ∨ n ∈ dom (environment (Examples.scenario false false false))))
    (sorted (full_dependencies (Examples.scenario false false false)
               (Examples.orphan :: Examples.scenario_existing)))
    ["a==1.0"; "b==2.0"; "c==3.0"].
Proof.
  apply generate_requirements_pruned; [by right|].
  vm_compute. reflexivity.
Defined.

End reconciler.

(** ** Rewriting a file in place, and the section of the lock in use *)

Section in_place_mode.

Implicit Types (self : PackageProcessor) (l : list Requirement).

(** C3: with [in_place] set and [force] not, the closure contains the
    name of every existing requirement; a returned list has a line for
    each of them, and for a name the lock map does not have it is the
    line of the last existing requirement of that name, as it was. The
    run returns whenever the dependencies the graph lists for the roots
    are in the version map: an existing name never makes it fail. *)
Theorem generate_requirements_additive self l :
  in_place self = true → force self = false →
  dom (requirements l) ⊆ full_dependencies self l
  ∧ (∀ r, r ∈ l → package_name r ∈ full_dependencies self l)
  ∧ (∀ out, generate_requirements self l = Some out →
       (∀ r, r ∈ l →
          ∃ r', version_map self l !! package_name r = Some r'
                ∧ requirement_line r' ∈ out)
       ∧ (∀ l1 r l2, l = l1 ++ r :: l2 →
            (∀ r', r' ∈ l2 → package_name r' ≠ package_name r) →
            lock_map self !! package_name r = None →
            requirement_line r ∈ out))
  ∧ ((∀ r deps d, r ∈ root_requirements self l →
                  dependency_map self !! r = Some deps → d ∈ deps →
                  is_Some (version_map self l !! d)) →
     is_Some (generate_requirements self l)).
Proof.
  intros Hin Hforce.
  assert (dom (requirements l) ⊆ full_dependencies self l) as Hsub.
  { rewrite full_dependencies_unfold, Hin, Hforce. set_solver. }
  assert (∀ r, r ∈ l → package_name r ∈ full_dependencies self l) as Hall.
  { intros r Hr. apply Hsub, elem_of_dom_requirements. eauto. }
  split; [done|]. split; [done|]. split.
  - intros out Hout. split.
    + intros r Hr. eapply generate_requirements_line; eauto.
    + intros l1 r l2 -> Hlast Hlock.
      destruct (generate_requirements_line self _ out (package_name r) Hout)
        as (r' & Hr' & Hline); [apply Hall; set_solver|].
      rewrite version_map_lookup, Hlock in Hr'.
      rewrite requirements_lookup_last in Hr' by done. by simplify_eq.
  - intros Hdeps.
    destruct (generate_requirements self l) as [out|] eqn:Hout; [done|].
    exfalso. apply generate_requirements_None in Hout as (n & Hn & Hnone).
    assert (n ∈ dom (requirements l) → False) as Hexisting.
    { intros [r Hr]%elem_of_dom. rewrite version_map_lookup, Hr in Hnone.
      by destruct (lock_map self !! n). }
    rewrite full_dependencies_unfold, Hin, Hforce in Hn. simpl in Hn.
    apply elem_of_union in Hn as [Hn|Hn]; [|done].
    apply elem_of_reached in Hn as [Hn|(r & deps & Hr & Hr' & Hn)].
    + apply Hexisting. unfold root_requirements in Hn. set_solver.
    + destruct (Hdeps r deps n Hr Hr' Hn) as [? ?]. congruence.
Qed.

(** The scenario with the orphan, rewritten in place: every name stays
    and the orphan keeps its line. *)
Lemma generate_requirements_additive_scenario :
  generate_requirements (Examples.scenario false true false)
    (Examples.scenario_existing ++ [Examples.orphan])
  = Some ["a==1.0"; "b==2.0"; "c==3.0"; "x==9.9"]
  ∧ requirement_line Examples.orphan ∈ ["a==1.0"; "b==2.0"; "c==3.0"; "x==9.9"].
Proof.
  assert (generate_requirements (Examples.scenario false true false)
            (Examples.scenario_existing ++ [Examples.orphan])
          = Some ["a==1.0"; "b==2.0"; "c==3.0"; "x==9.9"]) as Hout
    by (vm_compute; reflexivity).
  split; [exact Hout|].
  destruct (generate_requirements_additive (Examples.scenario false true false)
              (Examples.scenario_existing ++ [Examples.orphan])
              eq_refl eq_refl) as (_ & _ & Hlines & _).
  destruct (Hlines _ Hout) as [_ Horphan].
  apply (Horphan Examples.scenario_existing Examples.orphan []).
  - reflexivity.
  - intros r' Hr'. by apply elem_of_nil in Hr'.
  - vm_compute. reflexivity.
Defined.

(** C1: the version map is the overlay of one section of the lock on
    the existing requirements, the lock winning; the section is
    [default] without [include_dev], and with [include_dev] it is
    [develop] alone, not the union with [default]. In the scenario run
    with dev packages included, the stale line of [a] stays although the
    lock resolves [a], and [c], which only [default] has, makes the run
    fail. *)
Theorem version_map_overlay self l n :
  version_map self l !! n
  = match
      (if include_dev self
       then PipfileLock.develop_section (pipfile_lock self)
       else PipfileLock.default_section (pipfile_lock self)) !! n
    with
    | Some entry => Some (from_data n entry)
    | None => requirements l !! n
    end
  ∧ (PipfileLock.default (pipfile_lock (Examples.scenario false false true))
       !! "a" = Some (mkRequirement "a" "a==1.0")
     ∧ version_map (Examples.scenario false false true)
         Examples.scenario_existing !! "a"
       = Some (mkRequirement "a" "a==0.9")
     ∧ version_map (Examples.scenario false false true)
         Examples.scenario_existing !! "c" = None
     ∧ generate_requirements (Examples.scenario false false true)
         Examples.scenario_existing = None).
Proof.
  split; [|by vm_compute].
  rewrite version_map_lookup.
  unfold lock_map, PipfileLock.dev, PipfileLock.default.
  destruct (include_dev self); rewrite section_lookup; by destruct (_ !! n).
Qed.

End in_place_mode.

(** ** Running on the own output *)

Section rerun.

Implicit Types (self : PackageProcessor) (l : list Requirement).

(** Parsed lines are the names with the lines without their trailing
    line feeds. *)
Lemma parse_output (names out : list string) :
  Forall2 (λ n line, package_name (parse_requirement_line line) = n)
    names out →
  parse_requirement_line <$> out
  = zip_with mkRequirement names (Str.rstrip <$> out).
Proof.
  induction 1 as [|n line names out Hn _ IH]; [done|].
  rewrite !fmap_cons. cbn [zip_with]. rewrite IH. f_equal.
  pose proof (parse_requirement_line_line line) as Hline.
  destruct (parse_requirement_line line). simpl in *. by subst.
Qed.

Lemma zip_with_keep {A} (f : A → string → string) (xs : list A)
    (ys : list string) :
  length xs = length ys → (∀ x y, y ∈ ys → f x y = y) →
  zip_with f xs ys = ys.
Proof.
  revert ys. induction xs as [|x xs IH]; intros [|y ys] Hlen Hkeep;
    simplify_eq/=; [done|].
  rewrite Hkeep by apply list_elem_of_here. f_equal. apply IH; [done|].
  intros x' y' Hy'. apply Hkeep. by apply list_elem_of_further.
Qed.

Lemma dom_requirements_zip (names out : list string) :
  length names = length out →
  dom (requirements (zip_with mkRequirement names out)) = list_to_set names.
Proof.
  intros Hlen. rewrite dom_requirements.
  rewrite (fmap_zip_with_l mkRequirement package_name); [done|done|lia].
Qed.

Lemma requirements_zip_lookup (names out : list string) i n line :
  NoDup names → names !! i = Some n → out !! i = Some line →
  requirements (zip_with mkRequirement names out) !! n
  = Some (mkRequirement n line).
Proof.
  intros Hnd Hn Hline.
  apply (requirements_lookup_unique _ (mkRequirement n line)).
  - by eapply elem_of_lookup_zip_with_2.
  - intros r' (j & n' & line' & -> & Hn' & Hline')%elem_of_lookup_zip_with.
    simpl. intros ->.
    assert (j = i) as -> by (by eapply NoDup_lookup).
    congruence.
Qed.

(** On the parsed output the roots reach what they reached before,
    and more only through a declared name whose dependencies the first
    closure lacks. *)
Lemma reached_rerun self l (closure : gset string) :
  reached self l = closure →
  (∀ n deps d, n ∈ closure → n ∈ dom (environment self) →
               dependency_map self !! n = Some deps → d ∈ deps →
               d ∈ closure) →
  ∀ l', dom (requirements l') = closure → reached self l' = closure.
Proof.
  intros Hclosure Hclosed l' Hdom. apply set_eq. intros n.
  rewrite elem_of_reached. unfold root_requirements. rewrite Hdom. split.
  - intros [Hn|(r & deps & Hr & Hdeps & Hn)]; [set_solver|].
    apply elem_of_intersection in Hr as [Hr Henv]. eauto.
  - rewrite <- Hclosure at 1. rewrite elem_of_reached.
    assert (root_requirements self l ⊆ closure ∩ dom (environment self))
      as Hroot.
    { intros r Hr. apply elem_of_intersection. split.
      - rewrite <- Hclosure. apply elem_of_reached. by left.
      - unfold root_requirements in Hr. set_solver. }
    intros [Hn|(r & deps & Hr & Hdeps & Hn)]; [left; by apply Hroot|].
    right. exists r, deps. split; [by apply Hroot|done].
Qed.

(** C2, amended: in strict mode, when every line of the first output
    parses back to the name it was emitted for, and the closure of the
    first run contains the dependencies the graph lists for each of its
    names that the environment declares, the run on the Requirements
    parsed from the output yields the same closure, and the same lines
    except that a line of a name the lock map lacks comes back without
    its trailing line feeds; so it yields the same lines when no line of
    the output ends in a line feed. *)
Theorem generate_requirements_rerun self l out :
  in_place self = false → force self = false →
  generate_requirements self l = Some out →
  (∀ n r, n ∈ full_dependencies self l → version_map self l !! n = Some r →
          package_name (parse_requirement_line (requirement_line r)) = n) →
  (∀ n deps d, n ∈ full_dependencies self l → n ∈ dom (environment self) →
               dependency_map self !! n = Some deps → d ∈ deps →
               d ∈ full_dependencies self l) →
  full_dependencies self (parse_requirement_line <$> out)
  = full_dependencies self l
  ∧ generate_requirements self (parse_requirement_line <$> out)
    = Some (zip_with
              (λ n line, match lock_map self !! n with
                         | Some _ => line
                         | None => Str.rstrip line
                         end)
              (sorted (full_dependencies self l)) out)
  ∧ ((∀ line, line ∈ out → Str.rstrip line = line) →
     generate_requirements self (parse_requirement_line <$> out) = Some out).
Proof.
  intros Hin _ Hout Hparse Hclosed.
  pose proof (proj1 (generate_requirements_Some _ _ _) Hout) as Hlines.
  pose proof (Forall2_length _ _ _ Hlines) as Hlen.
  set (closure := full_dependencies self l) in *.
  set (names := sorted closure) in *.
  set (kept := λ n line, match lock_map self !! n with
                         | Some _ => line
                         | None => Str.rstrip line
                         end).
  assert (parse_requirement_line <$> out
          = zip_with mkRequirement names (Str.rstrip <$> out)) as ->.
  { apply parse_output. eapply Forall2_same_length_lookup_2; [done|].
    intros i n line Hn Hline.
    destruct (Forall2_lookup_lr _ _ _ _ _ _ Hlines Hn Hline)
      as (r & Hr & <-).
    apply Hparse; [|done]. apply elem_of_sorted.
    by eapply list_elem_of_lookup_2. }
  assert (dom (requirements (zip_with mkRequirement names (Str.rstrip <$> out)))
          = closure) as Hdom.
  { rewrite dom_requirements_zip by by rewrite length_fmap.
    apply set_eq. intros n. unfold names.
    by rewrite elem_of_list_to_set, elem_of_sorted. }
  assert (full_dependencies self
            (zip_with mkRequirement names (Str.rstrip <$> out)) = closure)
    as Hsame.
  { rewrite full_dependencies_unfold, Hin. simpl.
    apply (reached_rerun self l); [|done..].
    subst closure. by rewrite full_dependencies_unfold, Hin. }
  assert (generate_requirements self
            (zip_with mkRequirement names (Str.rstrip <$> out))
          = Some (zip_with kept names out)) as Hagain.
  { apply generate_requirements_Some. rewrite Hsame. fold names.
    eapply Forall2_same_length_lookup_2;
      [by rewrite length_zip_with_l_eq|].
    intros i n line' Hn
      (n' & line & -> & Hn' & Hline)%lookup_zip_with_Some.
    assert (n' = n) as -> by congruence.
    destruct (Forall2_lookup_lr _ _ _ _ _ _ Hlines Hn Hline)
      as (r & Hr & <-).
    rewrite version_map_lookup in Hr. unfold Spec.line_of, kept.
    rewrite version_map_lookup.
    destruct (lock_map self !! n) as [r0|]; [by exists r|].
    exists (mkRequirement n (Str.rstrip (requirement_line r))).
    split; [|done].
    eapply requirements_zip_lookup; [apply sorted_NoDup|done|].
    by rewrite list_lookup_fmap, Hline. }
  split; [done|]. split; [done|].
  intros Hstripped. rewrite Hagain. f_equal. apply zip_with_keep; [done|].
  intros n line Hline. unfold kept.
  destruct (lock_map self !! n); [done|by apply Hstripped].
Qed.

(** The scenario of the specification run on its own output. *)
Lemma generate_requirements_rerun_scenario :
  full_dependencies (Examples.scenario false false false)
    (parse_requirement_line <$> ["a==1.0"; "b==2.0"; "c==3.0"])
  = full_dependencies (Examples.scenario false false false)
      Examples.scenario_existing
  ∧ generate_requirements (Examples.scenario false false false)
      (parse_requirement_line <$> ["a==1.0"; "b==2.0"; "c==3.0"])
    = Some ["a==1.0"; "b==2.0"; "c==3.0"].
Proof.
  destruct (generate_requirements_rerun (Examples.scenario false false false)
              Examples.scenario_existing ["a==1.0"; "b==2.0"; "c==3.0"])
    as (Hclosure & _ & Hlines).
  - reflexivity.
  - reflexivity.
  - vm_compute. reflexivity.
  - intros n r Hn%elem_of_sorted Hr. vm_compute in Hn.
    repeat (apply elem_of_cons in Hn as [->|Hn]);
      [vm_compute in Hr; injection Hr as <-; vm_compute; reflexivity..|].
    by apply elem_of_nil in Hn.
  - intros n deps d Hn%elem_of_sorted Henv Hdeps Hd. apply elem_of_sorted.
    vm_compute in Hn.
    repeat (apply elem_of_cons in Hn as [->|Hn]);
      [vm_compute in Hdeps; try injection Hdeps as <-..|].
    + apply elem_of_cons in Hd as [->|Hd]; [|by apply elem_of_nil in Hd].
      vm_compute. do 2 right. left.
    + by apply elem_of_nil in Hd.
    + discriminate.
    + by apply elem_of_nil in Hn.
  - split; [exact Hclosure|]. apply Hlines. intros line Hline.
    repeat (apply elem_of_cons in Hline as [->|Hline]);
      [reflexivity..|by apply elem_of_nil in Hline].
Defined.

(** C2 as stated fails when a dependency of a root is itself declared
    and has a dependency of its own: the second run makes it a root and
    the closure grows by [d]. *)
Lemma generate_requirements_rerun_chain :
  generate_requirements Examples.chain Examples.chain_existing
  = Some ["a==1.0"; "c==1.0"]
  ∧ generate_requirements Examples.chain
      (parse_requirement_line <$> ["a==1.0"; "c==1.0"])
    = Some ["a==1.0"; "c==1.0"; "d==1.0"]
  ∧ sorted (full_dependencies Examples.chain Examples.chain_existing)
    = ["a"; "c"]
  ∧ sorted (full_dependencies Examples.chain
              (parse_requirement_line <$> ["a==1.0"; "c==1.0"]))
    = ["a"; "c"; "d"]
  ∧ full_dependencies Examples.chain
      (parse_requirement_line <$> ["a==1.0"; "c==1.0"])
    ≠ full_dependencies Examples.chain Examples.chain_existing.
Proof.
  assert (sorted (full_dependencies Examples.chain Examples.chain_existing)
          = ["a"; "c"]) as H1 by (vm_compute; reflexivity).
  assert (sorted (full_dependencies Examples.chain
                    (parse_requirement_line <$> ["a==1.0"; "c==1.0"]))
          = ["a"; "c"; "d"]) as H2 by (vm_compute; reflexivity).
  split; [by vm_compute|]. split; [by vm_compute|].
  split; [done|]. split; [done|].
  intros Heq. rewrite Heq, H1 in H2. discriminate.
Qed.

(** C2 as stated also fails on the lines alone: an existing line that
    ends in a line feed and that the lock does not replace is emitted as
    it is by the first run and without the line feed by the second,
    though it parses back to its name and the closure stays. *)
Lemma generate_requirements_rerun_line_feed :
  generate_requirements Files.lone Files.lone_existing
  = Some ["x==1" +:+ Files.nl]
  ∧ package_name (parse_requirement_line ("x==1" +:+ Files.nl)) = "x"
  ∧ sorted (full_dependencies Files.lone
              (parse_requirement_line <$> ["x==1" +:+ Files.nl]))
    = sorted (full_dependencies Files.lone Files.lone_existing)
  ∧ generate_requirements Files.lone
      (parse_requirement_line <$> ["x==1" +:+ Files.nl])
    = Some ["x==1"]
  ∧ generate_requirements Files.lone
      (parse_requirement_line <$> ["x==1" +:+ Files.nl])
    ≠ generate_requirements Files.lone Files.lone_existing.
Proof.
  split; [by vm_compute|]. split; [by vm_compute|].
  split; [by vm_compute|]. split; [by vm_compute|].
  by vm_compute.
Qed.

End rerun.

(** ** Lines of a file and their parsing *)

Section file_lines.

Lemma rstrip_app_nl (s : string) :
  Str.rstrip (s +:+ String Str.nl "") = Str.rstrip s.
Proof.
  induction s as [|c s IH]; [done|].
  rewrite string_app_cons. simpl. by rewrite IH.
Qed.

Lemma one_line_nl_false (s : string) :
  Str.one_line (s +:+ String Str.nl "") = false.
Proof.
  induction s as [|c s IH]; [done|].
  rewrite string_app_cons. simpl. rewrite IH. apply andb_false_r.
Qed.

(** The text of the pattern with its line end set apart. *)
Lemma vcs_text_split (e x name t : string) :
  e +:+ "git+" +:+ x +:+ "#egg=" +:+ name +:+ t
  = (e +:+ "git+" +:+ x +:+ "#egg=" +:+ name) +:+ t.
Proof. by rewrite !string_app_assoc. Qed.

Lemma vcs_text_one_line (e x name : string) :
  e = "" ∨ e = "-e " → Str.one_line x = true → Str.one_line name = true →
  Str.one_line (e +:+ "git+" +:+ x +:+ "#egg=" +:+ name) = true.
Proof.
  intros He Hx Hname. rewrite !one_line_app. by destruct He as [-> | ->].
Qed.

(** A line feed at the end of a line does not change what the pattern
    finds in it. *)
Lemma vcs_form_app_nl (body name : string) :
  Str.one_line body = true →
  Spec.vcs_form (body +:+ String Str.nl "") name ↔ Spec.vcs_form body name.
Proof.
  intros Hbody. split.
  - intros (e & x & t & He & Ht & Hx & Hname & Hlast & Heq).
    pose proof (vcs_text_one_line e x name He Hx Hname) as Hone.
    rewrite vcs_text_split in Heq.
    apply line_end_unique in Heq as [-> <-]; [|done|done|by right|done].
    exists e, x, "". rewrite string_app_nil_r.
    repeat split; [done|by left|done..].
  - intros (e & x & t & He & Ht & Hx & Hname & Hlast & ->).
    rewrite vcs_text_split in Hbody |- *.
    assert (t = "") as ->.
    { destruct Ht as [-> | ->]; [done|].
      by rewrite one_line_nl_false in Hbody. }
    exists e, x, (String Str.nl ""). rewrite string_app_nil_r.
    rewrite <- vcs_text_split. repeat split; [done|by right|done..].
Qed.

Lemma search_app_nl (body : string) :
  Str.one_line body = true →
  GitParser.search (body +:+ String Str.nl "") = GitParser.search body.
Proof.
  intros Hbody. apply option_eq. intros name.
  by rewrite !search_Some, vcs_form_app_nl.
Qed.

End file_lines.

(** ** The text of a file, read and written *)

Section file_text.

Lemma parse_requirement_line_app_nl (body : string) :
  Str.one_line body = true →
  parse_requirement_line (body +:+ String Str.nl "")
  = parse_requirement_line body.
Proof.
  intros Hbody. unfold parse_requirement_line.
  by rewrite search_app_nl, rstrip_app_nl.
Qed.

(** X1: a line read from a file parses as the line without its line
    feed does, the text kept is that line, and parsing the kept text
    again gives the same Requirement. *)
Theorem parse_requirement_line_file_line (body : string) :
  Str.one_line body = true →
  parse_requirement_line (body +:+ String Str.nl "")
  = parse_requirement_line body
  ∧ requirement_line (parse_requirement_line body) = body
  ∧ parse_requirement_line
      (requirement_line (parse_requirement_line (body +:+ String Str.nl "")))
    = parse_requirement_line (body +:+ String Str.nl "").
Proof.
  intros Hbody. rewrite parse_requirement_line_app_nl by done.
  rewrite parse_requirement_line_line, rstrip_one_line by done. done.
Qed.

Lemma parse_requirement_line_file_line_foo :
  parse_requirement_line ("foo==1.2.3" +:+ String Str.nl "")
  = parse_requirement_line "foo==1.2.3"
  ∧ requirement_line (parse_requirement_line "foo==1.2.3") = "foo==1.2.3"
  ∧ parse_requirement_line
      (requirement_line
         (parse_requirement_line ("foo==1.2.3" +:+ String Str.nl "")))
    = parse_requirement_line ("foo==1.2.3" +:+ String Str.nl "").
Proof. by apply parse_requirement_line_file_line. Defined.

Lemma lines_cons (c : ascii) (s : string) :
  Text.lines (String c s)
  = if Str.is_nl c then String c "" :: Text.lines s
    else match Text.lines s with
         | [] => [String c ""]
         | line :: rest => String c line :: rest
         end.
Proof. reflexivity. Qed.

Lemma join_cons (sep x : string) (ls : list string) :
  Text.join sep (x :: ls)
  = match ls with [] => x | _ => x +:+ sep +:+ Text.join sep ls end.
Proof. by destruct ls. Qed.

(** X2: the lines a loop over a text yields put together are the text
    again, none is lost or changed; each is a text without line feed
    followed by one line feed, or, at the end only, a text that is not
    empty without one. *)
Theorem lines_lossless (s : string) :
  Text.join "" (Text.lines s) = s
  ∧ Forall Text.file_line (Text.lines s)
  ∧ ∀ i line, Text.lines s !! i = Some line → S i < length (Text.lines s) →
      ∃ body, Str.one_line body = true ∧ line = body +:+ String Str.nl "".
Proof.
  induction s as [|c s (IHjoin & IHall & IHinner)]; [by repeat split|].
  rewrite lines_cons. destruct (Str.is_nl c) eqn:Hc.
  - apply is_nl_true in Hc as ->. split; [|split].
    + rewrite join_cons. destruct (Text.lines s) eqn:Hs.
      * simpl in IHjoin. by subst s.
      * rewrite string_app_nil_l, IHjoin. done.
    + constructor; [|done]. exists "". split; [done|]. by left.
    + intros [|i] line; simpl.
      * intros [= <-] _. by exists "".
      * intros Hline Hlen. apply (IHinner i line Hline). lia.
  - destruct (Text.lines s) as [|first rest] eqn:Hs.
    + simpl in IHjoin. subst s. split; [done|]. split.
      * constructor; [|done]. exists (String c ""). simpl. rewrite Hc.
        split; [done|]. by right.
      * intros [|i] line; simpl; [lia|done].
    + split; [|split].
      * rewrite join_cons in *. destruct rest.
        -- by rewrite IHjoin.
        -- rewrite string_app_nil_l in *. rewrite string_app_cons. by f_equal.
      * apply Forall_cons in IHall as [(body & Hbody & Hfirst) Hrest].
        constructor; [|done]. exists (String c body). simpl.
        rewrite Hc, Hbody. split; [done|].
        destruct Hfirst as [-> | [-> _]]; [by left|by right].
      * intros [|i] line; simpl.
        -- intros [= <-] Hlen.
           destruct (IHinner 0 first eq_refl) as (body & Hbody & ->);
             [simpl; lia|].
           exists (String c body). simpl. by rewrite Hc, Hbody.
        -- intros Hline Hlen. apply (IHinner (S i) line Hline). simpl. lia.
Qed.

End file_text.

(** ** Reading back what was written *)

Section read_back.

Lemma universal_newlines_no_cr (s : string) :
  Text.no_cr s = true → Text.universal_newlines s = s.
Proof.
  induction s as [|c s IH]; [done|]. simpl.
  intros [Hc%negb_true_iff Hs]%andb_true_iff. by rewrite Hc, (IH Hs).
Qed.

Lemma no_cr_app (s t : string) :
  Text.no_cr (s +:+ t) = Text.no_cr s && Text.no_cr t.
Proof.
  induction s as [|c s IH]; [done|].
  rewrite string_app_cons. simpl. by rewrite IH, andb_assoc.
Qed.

Lemma no_cr_render (out : list string) :
  Forall (λ line, Text.clean_line line = true) out →
  Text.no_cr (Text.render out) = true.
Proof.
  intros Hout. unfold Text.render. rewrite no_cr_app, andb_true_r.
  induction Hout as [|line out [_ Hline]%andb_true_iff _ IH]; [done|].
  rewrite join_cons. destruct out; [done|].
  by rewrite !no_cr_app, Hline, IH.
Qed.

(** The first line of a text that begins with a line of its own. *)
Lemma lines_app_line (body rest : string) :
  Str.one_line body = true →
  Text.lines (body +:+ String Str.nl rest)
  = (body +:+ String Str.nl "") :: Text.lines rest.
Proof.
  intros Hbody. induction body as [|c body IH].
  - by rewrite !string_app_nil_l.
  - simpl in Hbody. apply andb_true_iff in Hbody as [Hc%negb_true_iff Hbody].
    by rewrite !string_app_cons, lines_cons, Hc, (IH Hbody).
Qed.

Lemma lines_render (out : list string) :
  out ≠ [] → Forall (λ line, Str.one_line line = true) out →
  Text.lines (Text.render out) = (λ line, line +:+ String Str.nl "") <$> out.
Proof.
  intros Hne Hout. unfold Text.render.
  induction Hout as [|line out Hline _ IH]; [done|].
  rewrite join_cons. destruct out as [|next out].
  - by rewrite lines_app_line.
  - rewrite !string_app_assoc.
    change (String Str.nl "" +:+ ?t) with (String Str.nl t).
    rewrite lines_app_line by done. rewrite fmap_cons. f_equal. by apply IH.
Qed.

(** X3: a list of lines that [main] writes, not empty and each without
    line feed and carriage return, is read back by [main] as the
    Requirements parsed from those lines, one for each, in order. *)
Theorem read_requirements_render (out : list string) :
  out ≠ [] → Forall (λ line, Text.clean_line line = true) out →
  read_requirements (Text.render out) = parse_requirement_line <$> out.
Proof.
  intros Hne Hclean. unfold read_requirements.
  rewrite universal_newlines_no_cr by by apply no_cr_render.
  assert (Forall (λ line, Str.one_line line = true) out) as Hone.
  { eapply Forall_impl; [exact Hclean|]. by intros line [? _]%andb_true_iff. }
  rewrite lines_render by done. rewrite <- list_fmap_compose.
  apply Forall_fmap_ext_1. eapply Forall_impl; [exact Hone|].
  intros line Hline. by apply parse_requirement_line_app_nl.
Qed.

Lemma read_requirements_render_scenario :
  read_requirements (Text.render ["a==1.0"; "b==2.0"; "c==3.0"])
  = parse_requirement_line <$> ["a==1.0"; "b==2.0"; "c==3.0"].
Proof.
  apply read_requirements_render; [done|]. by repeat constructor.
Defined.

End read_back.

(** ** Dict comprehensions: the last entry of a key stays *)

Section comprehensions.

Implicit Types (self : PackageProcessor) (l : list Requirement).

Lemma comprehension_lookup {A V} (key : A → string) (val : A → V)
    (xs : list A) (n : string) :
  foldl (λ m x, <[key x := val x]> m) (∅ : gmap string V) xs !! n
  = val <$> last (filter (λ x, key x = n) xs).
Proof.
  induction xs as [|x xs IH] using rev_ind; [done|].
  rewrite foldl_snoc, filter_app, filter_cons, filter_nil.
  destruct (decide (key x = n)) as [<-|Hne].
  - by rewrite lookup_insert_eq, last_snoc.
  - by rewrite lookup_insert_ne, IH, (right_id_L [] (++)).
Qed.

Lemma requirements_lookup l n :
  requirements l !! n = last (filter (λ r, package_name r = n) l).
Proof.
  unfold requirements. rewrite (comprehension_lookup package_name id).
  by destruct (last _).
Qed.

(** X4: the dependency map has for a package the dependencies of the
    last node of the graph that carries its name, and nothing for a
    package no node names. *)
Theorem dependency_map_last_node self (n : string) :
  dependency_map self !! n
  = node_dependencies
      <$> last (filter (λ node, node_package node = n) (graph self)).
Proof. apply (comprehension_lookup node_package node_dependencies). Qed.

(** An existing requirement with a later one of its name leaves no
    trace in the map. *)
Lemma requirements_shadowed l1 r l2 :
  (∃ r', r' ∈ l2 ∧ package_name r' = package_name r) →
  requirements (l1 ++ r :: l2) = requirements (l1 ++ l2).
Proof.
  intros (r' & Hr' & Hname). apply map_eq. intros n.
  rewrite !requirements_lookup, !filter_app, filter_cons, !last_app.
  destruct (decide (package_name r = n)) as [<-|]; [|done].
  assert (r' ∈ filter (λ x, package_name x = package_name r) l2) as Hin
    by by apply list_elem_of_filter.
  destruct (filter _ l2) as [|x xs] using rev_ind;
    [by apply elem_of_nil in Hin|].
  by rewrite app_comm_cons, !last_snoc.
Qed.

(** X5: an existing requirement that is followed in the list by one of
    the same name has no influence: taking it out changes neither the
    returned lines nor what is logged. *)
Theorem generate_requirements_shadowed self l1 r l2 :
  (∃ r', r' ∈ l2 ∧ package_name r' = package_name r) →
  generate_requirements self (l1 ++ r :: l2)
  = generate_requirements self (l1 ++ l2)
  ∧ generate_requirements_log self (l1 ++ r :: l2)
    = generate_requirements_log self (l1 ++ l2).
Proof.
  intros Hlater.
  unfold generate_requirements, generate_requirements_log, version_map,
    full_dependencies, missing, reached, root_requirements.
  by rewrite (requirements_shadowed l1 r l2 Hlater).
Qed.

Lemma generate_requirements_shadowed_scenario :
  generate_requirements (Examples.scenario false true false)
    ([] ++ mkRequirement "x" "x==1.0" :: [Examples.orphan])
  = generate_requirements (Examples.scenario false true false)
      ([] ++ [Examples.orphan])
  ∧ generate_requirements_log (Examples.scenario false true false)
      ([] ++ mkRequirement "x" "x==1.0" :: [Examples.orphan])
    = generate_requirements_log (Examples.scenario false true false)
        ([] ++ [Examples.orphan]).
Proof.
  apply generate_requirements_shadowed.
  exists Examples.orphan. split; [apply list_elem_of_here|reflexivity].
Defined.

(** X6: every entry of the version map stands under the package name it
    carries, and a name has an entry exactly when the section of the
    lock in use has it or an existing requirement carries it. *)
Theorem version_map_keys self l (n : string) :
  (∀ r, version_map self l !! n = Some r → package_name r = n)
  ∧ (is_Some (version_map self l !! n) ↔
     is_Some ((if include_dev self
               then PipfileLock.develop_section (pipfile_lock self)
               else PipfileLock.default_section (pipfile_lock self)) !! n)
     ∨ ∃ r, r ∈ l ∧ package_name r = n).
Proof.
  set (section := if include_dev self
                 then PipfileLock.develop_section (pipfile_lock self)
                 else PipfileLock.default_section (pipfile_lock self)).
  assert (lock_map self !! n = from_data n <$> section !! n) as Hlock.
  { unfold lock_map, PipfileLock.dev, PipfileLock.default, section.
    destruct (include_dev self); apply section_lookup. }
  rewrite version_map_lookup, Hlock.
  rewrite <- elem_of_dom_requirements, elem_of_dom.
  destruct (section !! n) as [entry|]; simpl; split.
  - intros r [= <-]. unfold from_data. by repeat case_match.
  - split; [by left|by eauto].
  - intros r. rewrite requirements_lookup. intros Hr%last_Some_elem_of.
    by apply list_elem_of_filter in Hr as [? _].
  - split; [by right|]. by intros [[? [=]]|?].
Qed.

End comprehensions.

(** ** What is kept and what is added *)

Section closure.

Implicit Types (self : PackageProcessor) (l : list Requirement).

Lemma reached_subseteq self l : reached self l ⊆ full_dependencies self l.
Proof.
  rewrite full_dependencies_unfold.
  destruct (in_place self && negb (force self)); set_solver.
Qed.

(** X7: in every mode, an existing requirement whose name the
    environment declares stays in the closure, and so does every
    dependency the graph lists for it; a returned list has the line of
    each. *)
Theorem generate_requirements_keeps_declared self l r :
  r ∈ l → package_name r ∈ dom (environment self) →
  package_name r ∈ full_dependencies self l
  ∧ (∀ deps d, dependency_map self !! package_name r = Some deps →
               d ∈ deps → d ∈ full_dependencies self l)
  ∧ ∀ out, generate_requirements self l = Some out →
      (∃ r', version_map self l !! package_name r = Some r'
             ∧ requirement_line r' ∈ out)
      ∧ ∀ deps d, dependency_map self !! package_name r = Some deps →
                  d ∈ deps →
                  ∃ r', version_map self l !! d = Some r'
                        ∧ requirement_line r' ∈ out.
Proof.
  intros Hr Henv.
  assert (package_name r ∈ root_requirements self l) as Hroot.
  { unfold root_requirements. apply elem_of_intersection. split; [|done].
    apply elem_of_dom_requirements. eauto. }
  assert (package_name r ∈ full_dependencies self l) as Hkept.
  { apply reached_subseteq, elem_of_reached. by left. }
  assert (∀ deps d, dependency_map self !! package_name r = Some deps →
                    d ∈ deps → d ∈ full_dependencies self l) as Hdeps.
  { intros deps d Hd Hin. apply reached_subseteq, elem_of_reached.
    right. by exists (package_name r), deps. }
  split; [done|]. split; [done|]. intros out Hout. split.
  - by apply generate_requirements_line.
  - intros deps d Hd Hin. apply generate_requirements_line; eauto.
Qed.

Lemma generate_requirements_keeps_declared_scenario :
  "a" ∈ full_dependencies (Examples.scenario true true false)
          Examples.scenario_existing
  ∧ "c" ∈ full_dependencies (Examples.scenario true true false)
            Examples.scenario_existing.
Proof.
  destruct (generate_requirements_keeps_declared
              (Examples.scenario true true false) Examples.scenario_existing
              (mkRequirement "a" "a==0.9"))
    as (Ha & Hc & _).
  - apply list_elem_of_here.
  - vm_compute. reflexivity.
  - split; [exact Ha|]. apply (Hc ["c"]).
    + vm_compute. reflexivity.
    + apply list_elem_of_here.
Defined.

Lemma full_dependencies_dom self l l' :
  dom (requirements l) = dom (requirements l') →
  full_dependencies self l = full_dependencies self l'.
Proof.
  intros Hdom. rewrite !full_dependencies_unfold.
  unfold reached, root_requirements. by rewrite Hdom.
Qed.

Lemma mapM_ext_in {A B} (f g : A → option B) (xs : list A) :
  (∀ x, x ∈ xs → f x = g x) → mapM f xs = mapM g xs.
Proof.
  induction xs as [|x xs IH]; intros Hext; [done|].
  simpl. rewrite (Hext x) by apply list_elem_of_here.
  rewrite IH; [done|]. intros y Hy. apply Hext. by apply list_elem_of_further.
Qed.

(** X8: when the section of the lock in use has every name of the
    closure, the returned lines are the lines built from the lock, in
    the order of the names, and the texts of the existing lines have no
    influence: a list with the same package names gives the same
    result. *)
Theorem generate_requirements_lock_decides self l :
  (∀ n, n ∈ full_dependencies self l → is_Some (lock_map self !! n)) →
  generate_requirements self l
  = mapM (λ n, requirement_line <$> lock_map self !! n)
         (sorted (full_dependencies self l))
  ∧ is_Some (generate_requirements self l)
  ∧ ∀ l', dom (requirements l') = dom (requirements l) →
          generate_requirements self l' = generate_requirements self l.
Proof.
  intros Hlock.
  assert (∀ l', dom (requirements l') = dom (requirements l) →
          generate_requirements self l'
          = mapM (λ n, requirement_line <$> lock_map self !! n)
                 (sorted (full_dependencies self l))) as Hsame.
  { intros l' Hdom. unfold generate_requirements.
    rewrite (full_dependencies_dom self l' l Hdom).
    apply mapM_ext_in. intros n Hn%elem_of_sorted.
    rewrite version_map_lookup. by destruct (Hlock n Hn) as [r ->]. }
  split; [by apply Hsame|]. split.
  - rewrite (Hsame l eq_refl). apply mapM_is_Some, Forall_forall.
    intros n Hn%elem_of_sorted. simpl. by destruct (Hlock n Hn) as [r ->].
  - intros l' Hdom. by rewrite (Hsame l' Hdom), (Hsame l eq_refl).
Qed.

Lemma generate_requirements_lock_decides_scenario :
  generate_requirements (Examples.scenario false false false)
    Examples.scenario_existing
  = mapM (λ n, requirement_line
                 <$> lock_map (Examples.scenario false false false) !! n)
         (sorted (full_dependencies (Examples.scenario false false false)
                    Examples.scenario_existing))
  ∧ is_Some (generate_requirements (Examples.scenario false false false)
               Examples.scenario_existing)
  ∧ ∀ l', dom (requirements l')
          = dom (requirements Examples.scenario_existing) →
          generate_requirements (Examples.scenario false false false) l'
          = generate_requirements (Examples.scenario false false false)
              Examples.scenario_existing.
Proof.
  apply generate_requirements_lock_decides.
  intros n Hn%elem_of_sorted. vm_compute in Hn.
  repeat (apply elem_of_cons in Hn as [->|Hn]);
    [eexists; vm_compute; reflexivity..|by apply elem_of_nil in Hn].
Defined.

End closure.

(** ** The modes compared *)

Section modes.

Implicit Types (self : PackageProcessor) (l : list Requirement).

Lemma StronglySorted_sublist {A} (R : relation A) (xs ys : list A) :
  xs `sublist_of` ys → StronglySorted R ys → StronglySorted R xs.
Proof.
  induction 1 as [|x xs ys Hsub IH|x xs ys Hsub IH]; [done|..].
  - intros [Hx Hys]%StronglySorted_cons. apply StronglySorted_cons.
    split; [|by apply IH].
    apply Forall_forall. intros y Hy. rewrite Forall_forall in Hx.
    apply Hx. by eapply elem_of_sublist.
  - intros [_ Hys]%StronglySorted_cons. by apply IH.
Qed.

(** The sorted list of a subset is the sorted list of the set with the
    other names taken out. *)
Lemma sorted_subset (small big : gset string) :
  small ⊆ big → sorted small = filter (λ n, n ∈ small) (sorted big).
Proof.
  intros Hsub. symmetry. apply sorted_unique.
  - eapply StronglySorted_sublist;
      [apply sublist_filter|apply sorted_StronglySorted].
  - apply NoDup_filter, sorted_NoDup.
  - intros n. rewrite list_elem_of_filter, elem_of_sorted. set_solver.
Qed.

Lemma Forall2_filter_sublist {A B} (P : A → B → Prop) (Q : A → Prop)
    `{∀ x, Decision (Q x)} (xs : list A) (ys : list B) :
  Forall2 P xs ys →
  ∃ ys', Forall2 P (filter Q xs) ys' ∧ ys' `sublist_of` ys.
Proof.
  induction 1 as [|x y xs ys Hxy _ (ys' & IH & Hsub)].
  - exists []. by split.
  - rewrite filter_cons. destruct (decide (Q x)).
    + exists (y :: ys'). split; [by constructor|by constructor].
    + exists ys'. split; [done|by constructor].
Qed.

Lemma generate_dependencies_with_flags self force' in_place' names :
  generate_dependencies (with_flags self force' in_place') names
  = generate_dependencies self names.
Proof. induction names as [|n names IH]; [done|]. simpl. by rewrite IH. Qed.

Lemma reached_with_flags self force' in_place' l :
  reached (with_flags self force' in_place') l = reached self l.
Proof. unfold reached. by rewrite generate_dependencies_with_flags. Qed.

(** X9: rewriting in place without [force] only adds to what the other
    modes return. When it returns, the run with [in_place] unset returns
    too, its lines are the lines of the in-place run with some left out,
    in the same order, what is left out belongs to the existing names
    the roots do not reach, and every choice of the flags other than
    [in_place] without [force] gives that same smaller list. *)
Theorem generate_requirements_in_place_adds self l :
  in_place self = true → force self = false →
  full_dependencies self l
  = full_dependencies (with_flags self false false) l ∪ missing self l
  ∧ ∀ out, generate_requirements self l = Some out →
      ∃ strict_out,
        strict_out `sublist_of` out
        ∧ ∀ force' in_place', in_place' && negb force' = false →
            generate_requirements (with_flags self force' in_place') l
            = Some strict_out.
Proof.
  intros Hin Hforce.
  assert (full_dependencies self l = reached self l ∪ dom (requirements l))
    as Hfull by by rewrite full_dependencies_unfold, Hin, Hforce.
  split.
  { rewrite Hfull. unfold missing. apply set_eq. intros n.
    rewrite !elem_of_union, elem_of_difference.
    rewrite (full_dependencies_unfold (with_flags self false false)).
    simpl. rewrite reached_with_flags.
    destruct (decide (n ∈ reached self l)); naive_solver. }
  intros out Hout. apply generate_requirements_Some in Hout.
  destruct (Forall2_filter_sublist (Spec.line_of self l)
              (λ n, n ∈ reached self l) _ _ Hout) as (strict_out & Hs & Hsub).
  exists strict_out. split; [done|].
  intros force' in_place' Hmode. apply generate_requirements_Some.
  rewrite full_dependencies_unfold. simpl. rewrite Hmode.
  rewrite reached_with_flags.
  rewrite (sorted_subset (reached self l) (full_dependencies self l))
    by apply reached_subseteq.
  exact Hs.
Qed.

Lemma generate_requirements_in_place_adds_scenario :
  full_dependencies (Examples.scenario false true false)
    (Examples.orphan :: Examples.scenario_existing)
  = full_dependencies
      (with_flags (Examples.scenario false true false) false false)
      (Examples.orphan :: Examples.scenario_existing)
    ∪ missing (Examples.scenario false true false)
        (Examples.orphan :: Examples.scenario_existing)
  ∧ ∃ strict_out,
      strict_out `sublist_of` ["a==1.0"; "b==2.0"; "c==3.0"; "x==9.9"]
      ∧ ∀ force' in_place', in_place' && negb force' = false →
          generate_requirements
            (with_flags (Examples.scenario false true false) force' in_place')
            (Examples.orphan :: Examples.scenario_existing)
          = Some strict_out.
Proof.
  destruct (generate_requirements_in_place_adds
              (Examples.scenario false true false)
              (Examples.orphan :: Examples.scenario_existing)
              eq_refl eq_refl) as [Hclosure Hlines].
  split; [exact Hclosure|]. apply Hlines. vm_compute. reflexivity.
Defined.

(** X10: when the graph has no node for any root, in the modes other
    than [in_place] without [force] the closure is the existing names
    the environment declares and nothing else, and a warning is logged
    for each of them. *)
Theorem generate_requirements_without_graph self l :
  in_place self && negb (force self) = false →
  (∀ r, r ∈ root_requirements self l → dependency_map self !! r = None) →
  full_dependencies self l = dom (requirements l) ∩ dom (environment self)
  ∧ ∀ r, r ∈ root_requirements self l →
         GraphMiss r ∈ generate_requirements_log self l.
Proof.
  intros Hmode Hmiss. split.
  - rewrite full_dependencies_unfold, Hmode. apply set_eq. intros n.
    rewrite elem_of_reached. split; [|by left].
    intros [?|(r & deps & Hr & Hdeps & _)]; [done|].
    rewrite (Hmiss r Hr) in Hdeps. done.
  - intros r Hr. unfold generate_requirements_log.
    apply elem_of_app. left.
    apply elem_of_elements in Hr. pose proof (Hmiss r) as Hnone.
    rewrite <- elem_of_elements in Hnone. specialize (Hnone Hr).
    induction (elements (root_requirements self l)) as [|x xs IH];
      [by apply elem_of_nil in Hr|].
    simpl. apply elem_of_cons in Hr as [<-|Hr].
    + rewrite Hnone. apply list_elem_of_here.
    + apply elem_of_app. right. by apply IH.
Qed.

Lemma generate_requirements_without_graph_scenario :
  full_dependencies
    (mkPackageProcessor (pipfile (Examples.scenario false false false))
       (pipfile_lock (Examples.scenario false false false))
       false false false [])
    Examples.scenario_existing
  = dom (requirements Examples.scenario_existing)
    ∩ dom (environment
             (mkPackageProcessor (pipfile (Examples.scenario false false false))
                (pipfile_lock (Examples.scenario false false false))
                false false false []))
  ∧ ∀ r, r ∈ root_requirements
             (mkPackageProcessor (pipfile (Examples.scenario false false false))
                (pipfile_lock (Examples.scenario false false false))
                false false false [])
             Examples.scenario_existing →
         GraphMiss r
         ∈ generate_requirements_log
             (mkPackageProcessor (pipfile (Examples.scenario false false false))
                (pipfile_lock (Examples.scenario false false false))
                false false false [])
             Examples.scenario_existing.
Proof.
  apply generate_requirements_without_graph; [reflexivity|].
  intros r _. reflexivity.
Defined.

End modes.

(** ** The log *)

Section log.

Implicit Types (self : PackageProcessor) (l : list Requirement).

Lemma elem_of_generate_dependencies_log self names rec :
  rec ∈ generate_dependencies_log self names ↔
  ∃ r, rec = GraphMiss r ∧ r ∈ names ∧ dependency_map self !! r = None.
Proof.
  induction names as [|x names IH]; simpl.
  - split; [by intros ?%elem_of_nil|]. by intros (? & _ & ?%elem_of_nil & _).
  - rewrite elem_of_app, IH. split.
    + intros [Hx|(r & -> & Hr & Hnone)].
      * destruct (dependency_map self !! x) eqn:Hdm;
          [by apply elem_of_nil in Hx|].
        apply list_elem_of_singleton in Hx as ->.
        exists x. split; [done|]. split; [apply list_elem_of_here|done].
      * exists r. split; [done|]. split; [by apply list_elem_of_further|done].
    + intros (r & -> & [->|Hr]%elem_of_cons & Hnone).
      * left. rewrite Hnone. apply list_elem_of_here.
      * right. by exists r.
Qed.

Lemma generate_dependencies_log_NoDup self names :
  NoDup names → NoDup (generate_dependencies_log self names).
Proof.
  induction 1 as [|x names Hx _ IH]; simpl; [constructor|].
  apply NoDup_app. split; [|split; [|done]].
  - destruct (dependency_map self !! x); [constructor|apply NoDup_singleton].
  - intros rec Hrec (r & -> & Hr & _)%elem_of_generate_dependencies_log.
    destruct (dependency_map self !! x); [by apply elem_of_nil in Hrec|].
    apply list_elem_of_singleton in Hrec as [= ->]. done.
Qed.

Lemma missing_record_name self n :
  missing_record self n = ForceRemoved n
  ∨ missing_record self n = SkippedDev n
  ∨ missing_record self n = MissingInPipfile n.
Proof. unfold missing_record. repeat case_match; auto. Qed.

Global Instance missing_record_inj self : Inj (=) (=) (missing_record self).
Proof.
  intros n n' Heq.
  destruct (missing_record_name self n) as [Hn|[Hn|Hn]],
    (missing_record_name self n') as [Hn'|[Hn'|Hn']]; congruence.
Qed.

Lemma elem_of_missing self l n :
  in_place self && negb (force self) = false →
  n ∈ missing self l ↔ n ∈ dom (requirements l) ∧ n ∉ full_dependencies self l.
Proof.
  intros Hmode. unfold missing.
  by rewrite elem_of_difference, full_dependencies_unfold, Hmode.
Qed.

(** X11: a warning about the graph is logged exactly for the roots the
    graph has no node for, and no record is logged twice. *)
Theorem generate_requirements_log_graph_miss self l :
  (∀ r, GraphMiss r ∈ generate_requirements_log self l ↔
        r ∈ root_requirements self l ∧ dependency_map self !! r = None)
  ∧ NoDup (generate_requirements_log self l).
Proof.
  unfold generate_requirements_log. split.
  - intros r. rewrite elem_of_app, elem_of_generate_dependencies_log.
    setoid_rewrite elem_of_elements. split.
    + intros [(r' & [= <-] & ? & ?)|Hr]; [done|].
      destruct (in_place self && negb (force self));
        [by apply elem_of_nil in Hr|].
      apply list_elem_of_fmap in Hr as (n & Hn & _).
      by destruct (missing_record_name self n) as [?|[?|?]]; congruence.
    + intros [? ?]. left. by exists r.
  - apply NoDup_app. split; [|split].
    + apply generate_dependencies_log_NoDup, NoDup_elements.
    + intros rec (r & -> & _)%elem_of_generate_dependencies_log Hrec.
      destruct (in_place self && negb (force self));
        [by apply elem_of_nil in Hrec|].
      apply list_elem_of_fmap in Hrec as (n & Hn & _).
      by destruct (missing_record_name self n) as [?|[?|?]]; congruence.
    + destruct (in_place self && negb (force self)); [constructor|].
      apply (NoDup_fmap_2 _), NoDup_elements.
Qed.

(** X12: an existing name that is left out of the closure does not go
    unnoticed, and nothing else is reported: in the modes other than
    [in_place] without [force], [Force Sync] is logged for a name
    exactly when it is an existing name outside the closure and
    [in_place] is set; with [in_place] unset such a name gets the
    message about dev dependencies when dev packages are not included
    and the manifest lists it under them, and the message about the
    Pipfile otherwise. With [in_place] and without [force] none of the
    three is ever logged. *)
Theorem generate_requirements_log_dropped self l (n : string) :
  let dropped :=
    in_place self && negb (force self) = false
    ∧ n ∈ dom (requirements l) ∧ n ∉ full_dependencies self l in
  let dev := n ∈ dom (Pipfile.dev_packages (pipfile self)) in
  (ForceRemoved n ∈ generate_requirements_log self l ↔
     dropped ∧ in_place self = true)
  ∧ (SkippedDev n ∈ generate_requirements_log self l ↔
       dropped ∧ in_place self = false ∧ include_dev self = false ∧ dev)
  ∧ (MissingInPipfile n ∈ generate_requirements_log self l ↔
       dropped ∧ in_place self = false ∧ (include_dev self = true ∨ ¬ dev)).
Proof.
  intros dropped dev.
  assert (∀ rec, (∀ r, rec ≠ GraphMiss r) →
            rec ∈ generate_requirements_log self l ↔
            in_place self && negb (force self) = false
            ∧ ∃ n', rec = missing_record self n' ∧ n' ∈ dom (requirements l)
                    ∧ n' ∉ full_dependencies self l) as Hlog.
  { intros rec Hrec. unfold generate_requirements_log.
    rewrite elem_of_app, elem_of_generate_dependencies_log.
    destruct (in_place self && negb (force self)) eqn:Hmode.
    - split; [|by intros [[=] _]].
      intros [(r & -> & _)|?%elem_of_nil]; [by destruct (Hrec r)|done].
    - rewrite list_elem_of_fmap. setoid_rewrite elem_of_elements.
      setoid_rewrite (elem_of_missing self l _ Hmode). split.
      + intros [(r & -> & _)|(n' & -> & ? & ?)]; [by destruct (Hrec r)|].
        split; [done|]. by exists n'.
      + intros (_ & n' & -> & ? & ?). right. by exists n'. }
  subst dropped dev. rewrite !Hlog by done. unfold missing_record.
  destruct (in_place self) eqn:Hin; simpl.
  - split; [|split].
    + split.
      * intros (? & n' & [= <-] & ? & ?). done.
      * intros ((? & ? & ?) & _). split; [done|]. by exists n.
    + split; [by intros (? & n' & [=] & _)|by intros (_ & [=] & _)].
    + split; [by intros (? & n' & [=] & _)|by intros (_ & [=] & _)].
  - split; [|split].
    + split; [|by intros (_ & [=])].
      intros (_ & n' & Hrec & _). by repeat case_match.
    + split.
      * intros (_ & n' & Hrec & ? & ?).
        destruct (include_dev self); simpl in *; [done|].
        case_bool_decide; simplify_eq. done.
      * intros ((_ & ? & ?) & _ & -> & Hdev). split; [done|]. exists n.
        simpl. by rewrite bool_decide_eq_true_2.
    + split.
      * intros (_ & n' & Hrec & ? & ?).
        destruct (include_dev self); simpl in *; simplify_eq; [by auto|].
        case_bool_decide; simplify_eq. by auto 10.
      * intros ((_ & ? & ?) & _ & Hdev). split; [done|]. exists n.
        split; [|done]. destruct Hdev as [-> | Hdev]; [done|].
        rewrite bool_decide_eq_false_2 by done. by rewrite andb_false_r.
Qed.

End log.

(** ** The loop of [main] *)

Section main_loop.

Implicit Types (self : PackageProcessor) (l : list Requirement).

Lemma sorted_nil_iff (names : gset string) : sorted names = [] ↔ names = ∅.
Proof.
  split.
  - intros Hnil. apply leibniz_equiv, elements_empty_iff.
    apply Permutation_nil_r. by rewrite <- sorted_perm, Hnil.
  - intros ->. unfold sorted. by rewrite elements_empty.
Qed.

Lemma reached_empty_iff self l :
  reached self l = ∅ ↔ root_requirements self l = ∅.
Proof.
  split; intros Hempty; apply set_eq; intros n; split;
    try (by intros ?%not_elem_of_empty).
  - intros Hn. rewrite <- Hempty. apply elem_of_reached. by left.
  - intros [Hn|(r & _ & Hr & _)]%elem_of_reached; by rewrite Hempty in *.
Qed.

Lemma sync_content_Some_None self content :
  sync_content self content = Some None ↔
  generate_requirements self (read_requirements content) = Some [].
Proof.
  unfold sync_content.
  destruct (generate_requirements _ _) as [[|line out]|]; simpl; naive_solver.
Qed.

(** X13: the file is skipped, and so keeps its old content, exactly when
    no requirement read from it is declared in the environment and, in
    the mode [in_place] without [force], it has no requirement at all.
    So a forced run that would remove every line of a file does not
    rewrite the file. *)
Theorem sync_content_skips self content :
  sync_content self content = Some None ↔
  root_requirements self (read_requirements content) = ∅
  ∧ (in_place self && negb (force self) = true →
     dom (requirements (read_requirements content)) = ∅).
Proof.
  rewrite sync_content_Some_None, generate_requirements_Some.
  set (l := read_requirements content).
  assert (Forall2 (Spec.line_of self l) (sorted (full_dependencies self l)) []
          ↔ full_dependencies self l = ∅) as ->.
  { rewrite <- sorted_nil_iff. split; [apply Forall2_nil_inv_r|].
    intros ->. constructor. }
  rewrite full_dependencies_unfold.
  destruct (in_place self && negb (force self)).
  - rewrite <- reached_empty_iff. split.
    + intros Hempty. split; [|intros _]; set_solver.
    + intros [H1 H2]. rewrite H1, (H2 eq_refl). set_solver.
  - rewrite reached_empty_iff. naive_solver.
Qed.

(** X14: when the loop ends after the last file, every file was counted
    once, as synced or as skipped; when it ends with an exception, the
    file that raised and those after it were not counted. *)
Theorem sync_files_counts self (dependency_files : list FilePath)
    (st : RunState) :
  match sync_files self dependency_files st with
  | Finished st' =>
      synced_count st' + skipped_count st'
      = synced_count st + skipped_count st + length dependency_files
  | Raised st' =>
      synced_count st' + skipped_count st'
      < synced_count st + skipped_count st + length dependency_files
  end.
Proof.
  revert st. induction dependency_files as [|file_path rest IH]; intros st.
  - simpl. lia.
  - simpl. destruct (files st !! file_path) as [content|]; [|lia].
    destruct (sync_content self content) as [[text|]|]; [..|lia].
    + specialize (IH (mkRunState (<[target file_path := text]> (files st))
                                 (S (synced_count st)) (skipped_count st))).
      destruct (sync_files _ _ _); simpl in *; lia.
    + specialize (IH (mkRunState (files st) (synced_count st)
                                 (S (skipped_count st)))).
      destruct (sync_files _ _ _); simpl in *; lia.
Qed.

Lemma sync_files_other self (dependency_files : list FilePath)
    (st : RunState) (p : FilePath) :
  (∀ file_path, file_path ∈ dependency_files → p ≠ target file_path) →
  files (final_state (sync_files self dependency_files st)) !! p
  = files st !! p.
Proof.
  revert st. induction dependency_files as [|file_path rest IH];
    intros st Hother; [done|].
  simpl. destruct (files st !! file_path) as [content|]; [|done].
  destruct (sync_content self content) as [[text|]|]; [..|done].
  - rewrite IH by (intros f Hf; apply Hother; by apply list_elem_of_further).
    simpl. apply lookup_insert_ne. symmetry. apply Hother, list_elem_of_here.
  - by rewrite IH
      by (intros f Hf; apply Hother; by apply list_elem_of_further).
Qed.

(** X15: however the loop ends, the only files it writes are the files
    named [requirements.txt] beside the files it was given: every other
    path holds what it held before; so when the files given carry
    another name, none of them is changed. *)
Theorem sync_files_writes_targets_only self
    (dependency_files : list FilePath) (st : RunState) :
  (∀ p, (∀ file_path, file_path ∈ dependency_files →
                      p ≠ target file_path) →
        files (final_state (sync_files self dependency_files st)) !! p
        = files st !! p)
  ∧ ((∀ file_path, file_path ∈ dependency_files →
                   file_name file_path ≠ "requirements.txt") →
     ∀ file_path, file_path ∈ dependency_files →
       files (final_state (sync_files self dependency_files st)) !! file_path
       = files st !! file_path).
Proof.
  split; [intros p; apply sync_files_other|].
  intros Hnames p Hp. apply sync_files_other.
  intros file_path Hfile ->. by apply (Hnames _ Hp).
Qed.

End main_loop.

(** ** Running again on the written file *)

Section written_file.

Implicit Types (self : PackageProcessor) (l : list Requirement).

(** The closure for a list whose names are the closure of a first run
    that has the dependencies of its declared names. *)
Lemma full_dependencies_rerun self l l' :
  (∀ n deps d, n ∈ full_dependencies self l → n ∈ dom (environment self) →
               dependency_map self !! n = Some deps → d ∈ deps →
               d ∈ full_dependencies self l) →
  dom (requirements l') = full_dependencies self l →
  full_dependencies self l' = full_dependencies self l.
Proof.
  intros Hclosed Hdom.
  destruct (in_place self && negb (force self)) eqn:Hmode.
  - rewrite (full_dependencies_unfold self l'), Hmode, Hdom.
    assert (reached self l' ⊆ full_dependencies self l); [|set_solver].
    intros n [Hn|(r & deps & Hr & Hdeps & Hn)]%elem_of_reached;
      unfold root_requirements in *; rewrite Hdom in *.
    + set_solver.
    + apply elem_of_intersection in Hr as [Hr Henv]. eauto.
  - rewrite (full_dependencies_unfold self l'), Hmode.
    apply (reached_rerun self l); [|done..].
    by rewrite full_dependencies_unfold, Hmode.
Qed.

(** The lines of a first run, paired with their names, as the input of
    a second. *)
Lemma generate_requirements_zip self l out :
  generate_requirements self l = Some out →
  (∀ n deps d, n ∈ full_dependencies self l → n ∈ dom (environment self) →
               dependency_map self !! n = Some deps → d ∈ deps →
               d ∈ full_dependencies self l) →
  generate_requirements self
    (zip_with mkRequirement (sorted (full_dependencies self l)) out)
  = Some out.
Proof.
  intros Hout Hclosed.
  pose proof (proj1 (generate_requirements_Some _ _ _) Hout) as Hlines.
  pose proof (Forall2_length _ _ _ Hlines) as Hlen.
  set (names := sorted (full_dependencies self l)) in *.
  assert (full_dependencies self (zip_with mkRequirement names out)
          = full_dependencies self l) as Hsame.
  { apply full_dependencies_rerun; [done|].
    rewrite dom_requirements_zip by done. apply set_eq. intros n.
    unfold names. by rewrite elem_of_list_to_set, elem_of_sorted. }
  apply generate_requirements_Some. rewrite Hsame. fold names.
  eapply Forall2_same_length_lookup_2; [done|].
  intros i n line Hn Hline.
  destruct (Forall2_lookup_lr _ _ _ _ _ _ Hlines Hn Hline) as (r & Hr & <-).
  rewrite version_map_lookup in Hr. unfold Spec.line_of.
  rewrite version_map_lookup.
  destruct (lock_map self !! n) as [r0|]; [by exists r|].
  exists (mkRequirement n (requirement_line r)). split; [|done].
  eapply requirements_zip_lookup; [apply sorted_NoDup|done..].
Qed.

Lemma lines_universal_render (out : list string) :
  out ≠ [] → Forall (λ line, Text.clean_line line = true) out →
  Text.lines (Text.universal_newlines (Text.render out))
  = (λ line, line +:+ String Str.nl "") <$> out.
Proof.
  intros Hne Hclean.
  rewrite universal_newlines_no_cr by by apply no_cr_render.
  apply lines_render; [done|].
  eapply Forall_impl; [exact Hclean|]. by intros line [? _]%andb_true_iff.
Qed.

(** X16: in every mode, when [main] has rewritten a file, the lines
    written have no line feed and no carriage return and parse back to
    the names they were emitted for, and the closure has the
    dependencies the graph lists for its declared names, then running
    [main] on the written file writes the same text again. *)
Theorem sync_content_again self content text :
  sync_content self content = Some (Some text) →
  (∀ n r, n ∈ full_dependencies self (read_requirements content) →
          version_map self (read_requirements content) !! n = Some r →
          Text.clean_line (requirement_line r) = true
          ∧ package_name (parse_requirement_line (requirement_line r)) = n) →
  (∀ n deps d, n ∈ full_dependencies self (read_requirements content) →
               n ∈ dom (environment self) →
               dependency_map self !! n = Some deps → d ∈ deps →
               d ∈ full_dependencies self (read_requirements content)) →
  sync_content self text = Some (Some text).
Proof.
  set (l := read_requirements content). intros Hsync Hlines Hclosed.
  assert (∃ out, generate_requirements self l = Some out ∧ out ≠ []
                 ∧ text = Text.render out) as (out & Hout & Hne & ->).
  { unfold sync_content in Hsync. fold l in Hsync.
    destruct (generate_requirements self l) as [[|line out]|];
      simplify_eq/=. by eexists. }
  pose proof (proj1 (generate_requirements_Some _ _ _) Hout) as Hnames.
  assert (Forall2 (λ n line, Text.clean_line line = true
                             ∧ parse_requirement_line line
                               = mkRequirement n line)
            (sorted (full_dependencies self l)) out) as Hgood.
  { eapply Forall2_same_length_lookup_2; [by eapply Forall2_length|].
    intros i n line Hn Hline.
    destruct (Forall2_lookup_lr _ _ _ _ _ _ Hnames Hn Hline) as (r & Hr & <-).
    destruct (Hlines n r) as [Hclean Hname]; [|done|].
    { apply elem_of_sorted. by eapply list_elem_of_lookup_2. }
    split; [done|].
    pose proof (parse_requirement_line_line (requirement_line r)) as Hkept.
    destruct (parse_requirement_line (requirement_line r)) as [n' line'].
    simpl in *. subst n' line'.
    apply andb_true_iff in Hclean as [Hone _]. by rewrite rstrip_one_line. }
  assert (read_requirements (Text.render out)
          = zip_with mkRequirement (sorted (full_dependencies self l)) out)
    as Hread.
  { unfold read_requirements. rewrite lines_universal_render; [|done|].
    - rewrite <- list_fmap_compose. clear -Hgood.
      induction Hgood as [|n line names out [Hclean Hparse] _ IH]; [done|].
      rewrite fmap_cons. cbn [zip_with]. f_equal; [|done].
      unfold compose. rewrite parse_requirement_line_app_nl; [done|].
      by apply andb_true_iff in Hclean as [? _].
    - clear -Hgood. induction Hgood as [|???? [? _]]; by constructor. }
  unfold sync_content. rewrite Hread.
  rewrite (generate_requirements_zip self l out Hout Hclosed). simpl.
  by destruct out.
Qed.

(** The scenario of the specification, rewritten in place twice. *)
Lemma sync_content_again_scenario :
  sync_content (Examples.scenario false true false) Files.synced_text
  = Some (Some Files.synced_text).
Proof.
  apply (sync_content_again (Examples.scenario false true false)
           Files.existing_text).
  - vm_compute. reflexivity.
  - intros n r Hn%elem_of_sorted Hr. vm_compute in Hn.
    repeat (apply elem_of_cons in Hn as [->|Hn]);
      [vm_compute in Hr; injection Hr as <-; vm_compute; by split..|].
    by apply elem_of_nil in Hn.
  - intros n deps d Hn%elem_of_sorted Henv Hdeps Hd. apply elem_of_sorted.
    vm_compute in Hn.
    repeat (apply elem_of_cons in Hn as [->|Hn]);
      [vm_compute in Hdeps; try injection Hdeps as <-..|].
    + apply elem_of_cons in Hd as [->|Hd]; [|by apply elem_of_nil in Hd].
      vm_compute. do 2 right. left.
    + by apply elem_of_nil in Hd.
    + discriminate.
    + by apply elem_of_nil in Hn.
Defined.

End written_file.

(** ** Searching the directories *)

Section search.

Implicit Types (path rel : list string) (exclude : list (list string)).

Lemma Dir_ind_nested (P : Dir → Prop) :
  (∀ files dirs, Forall (λ entry, P entry.2) dirs → P (mkDir files dirs)) →
  ∀ dir, P dir.
Proof.
  intros Hdir. fix IH 1. intros [files dirs]. apply Hdir.
  induction dirs as [|[d sub] dirs IHdirs]; constructor; [apply IH|done].
Qed.

Lemma recursive_search_unfold path name exclude files dirs :
  recursive_search path name exclude (mkDir files dirs)
  = (if bool_decide (name ∈ files) then [mkFilePath path name] else [])
    ++ (entry ← dirs;
        if kept path exclude entry.1
        then recursive_search (path ++ [entry.1]) name exclude entry.2
        else []).
Proof.
  simpl. f_equal. induction dirs as [|[d sub] dirs IH]; [done|].
  simpl. by rewrite IH.
Qed.

Lemma recursive_search_finds_helper path name exclude (dir : Dir)
    (p : FilePath) :
  p ∈ recursive_search path name exclude dir ↔
  ∃ rel sub, below exclude path dir rel sub ∧ name ∈ readable sub
             ∧ p = mkFilePath (path ++ rel) name.
Proof.
  revert path. induction dir as [files dirs IH] using Dir_ind_nested.
  intros path. rewrite recursive_search_unfold, elem_of_app, list_elem_of_bind.
  split.
  - intros [Hp|([d sub] & Hsub & Hentry)].
    + case_bool_decide as Hname; [|by apply elem_of_nil in Hp].
      apply list_elem_of_singleton in Hp as ->.
      exists [], (mkDir files dirs). rewrite (right_id_L [] (++)).
      split; [constructor|done].
    + simpl in Hsub. destruct (kept path exclude d) eqn:Hkept;
        [|by apply elem_of_nil in Hsub].
      rewrite Forall_forall in IH.
      apply (IH (d, sub) Hentry) in Hsub as (rel & sub' & Hbelow & ? & ->).
      exists (d :: rel), sub'. split; [by econstructor|].
      split; [done|]. by rewrite <- (assoc_L (++)).
  - intros (rel & sub' & Hbelow & Hname & ->).
    inversion Hbelow as [|? ? d sub rel' ? Hentry Hkept Hrest]; subst.
    + left. rewrite (right_id_L [] (++)). simpl in Hname.
      rewrite bool_decide_eq_true_2 by done. apply list_elem_of_here.
    + right. exists (d, sub). split; [|done]. simpl. rewrite Hkept.
      rewrite Forall_forall in IH. apply (IH (d, sub) Hentry).
      exists rel', sub'. split; [done|]. split; [done|].
      by rewrite <- (assoc_L (++)).
Qed.

(** X17: [recursive_search] yields exactly the paths of the readable
    files of the given name in the starting directory and in the
    directories that are reached from it through directories that are
    kept: not in [exclude] and without a dot at the start of their
    name; a file found in the starting directory comes first. *)
Theorem recursive_search_finds path name exclude (dir : Dir) :
  (∀ p, p ∈ recursive_search path name exclude dir ↔
        ∃ rel sub, below exclude path dir rel sub ∧ name ∈ readable sub
                   ∧ p = mkFilePath (path ++ rel) name)
  ∧ (name ∈ readable dir →
     head (recursive_search path name exclude dir)
     = Some (mkFilePath path name)).
Proof.
  split; [intros p; apply recursive_search_finds_helper|].
  intros Hname. destruct dir as [files dirs].
  rewrite recursive_search_unfold. simpl in Hname.
  by rewrite bool_decide_eq_true_2.
Qed.

Lemma below_kept exclude path dir rel sub :
  below exclude path dir rel sub →
  Forall (λ d, hidden d = false) rel
  ∧ ∀ k, 0 < k ≤ length rel → path ++ take k rel ∉ exclude.
Proof.
  induction 1 as [|path dir d sub rel sub' _ Hkept _ [IHhidden IHexcl]].
  - split; [constructor|]. simpl. lia.
  - apply andb_true_iff in Hkept as [Hexcl%bool_decide_eq_true Hdot].
    apply negb_true_iff in Hdot. split; [by constructor|].
    intros [|[|k]] Hk; simpl in *; [lia|by rewrite take_0|].
    rewrite cons_middle, (assoc_L (++)). apply IHexcl. simpl. lia.
Qed.

(** X18: no path that [recursive_search] yields lies in or below a
    directory whose name begins with a dot or whose path is in
    [exclude], and every such path carries the given name; the starting
    directory itself is searched whatever its name is and also when its
    path is in [exclude]. *)
Theorem recursive_search_prunes path name exclude (dir : Dir) :
  (∀ p, p ∈ recursive_search path name exclude dir →
        file_name p = name
        ∧ ∃ rel, parent p = path ++ rel
                 ∧ Forall (λ d, hidden d = false) rel
                 ∧ ∀ k, 0 < k ≤ length rel → path ++ take k rel ∉ exclude)
  ∧ (name ∈ readable dir →
     mkFilePath path name ∈ recursive_search path name exclude dir).
Proof.
  split.
  - intros p (rel & sub & Hbelow & _ & ->)%recursive_search_finds_helper.
    split; [done|]. exists rel. split; [done|]. by eapply below_kept.
  - intros Hname. apply recursive_search_finds_helper.
    exists [], dir. rewrite (right_id_L [] (++)). split; [constructor|done].
Qed.

End search.

(** ** Line ends and longer lists *)

Section more.

Implicit Types (self : PackageProcessor) (l : list Requirement).

Lemma universal_newlines_cons (c : ascii) (s : string) :
  Text.universal_newlines (String c s)
  = if Text.is_cr c then
      match s with
      | String d s' =>
          if Str.is_nl d then String Str.nl (Text.universal_newlines s')
          else String Str.nl (Text.universal_newlines s)
      | EmptyString => String Str.nl EmptyString
      end
    else String c (Text.universal_newlines s).
Proof. reflexivity. Qed.

Lemma universal_newlines_clean (s : string) :
  Text.no_cr (Text.universal_newlines s) = true
  ∧ ∀ c, Text.no_cr (Text.universal_newlines (String c s)) = true.
Proof.
  induction s as [|d s [IH1 IH2]].
  - split; [done|]. intros c. simpl. destruct (Text.is_cr c) eqn:Hc; [done|].
    simpl. by rewrite Hc.
  - split; [apply IH2|]. intros c. rewrite universal_newlines_cons.
    destruct (Text.is_cr c) eqn:Hc.
    + destruct (Str.is_nl d); cbn [Text.no_cr]; by rewrite ?IH1, ?IH2.
    + cbn [Text.no_cr]. by rewrite Hc, IH2.
Qed.

Lemma universal_newlines_to_crlf (s : string) :
  Text.no_cr s = true → Text.universal_newlines (Text.to_crlf s) = s.
Proof.
  induction s as [|c s IH]; [done|]. cbn [Text.no_cr Text.to_crlf].
  intros [Hc%negb_true_iff Hs]%andb_true_iff.
  destruct (Str.is_nl c) eqn:Hnl.
  - rewrite universal_newlines_cons.
    change (Text.is_cr Text.cr) with true. cbv iota. rewrite Hnl.
    apply is_nl_true in Hnl as ->. by rewrite (IH Hs).
  - rewrite universal_newlines_cons, Hc. by rewrite (IH Hs).
Qed.

(** X19: what [main] reads from a file never holds a carriage return,
    and a file stored with a carriage return before each line feed is
    read as the same text, and so as the same Requirements, as the file
    stored with line feeds alone. *)
Theorem read_requirements_line_ends :
  (∀ text, Text.no_cr (Text.universal_newlines text) = true)
  ∧ (∀ text, Text.no_cr text = true →
       Text.universal_newlines (Text.to_crlf text) = text
       ∧ read_requirements (Text.to_crlf text) = read_requirements text).
Proof.
  split; [intros text; apply universal_newlines_clean|].
  intros text Hclean. split; [by apply universal_newlines_to_crlf|].
  unfold read_requirements.
  by rewrite universal_newlines_to_crlf, universal_newlines_no_cr.
Qed.

(** X20: listing more never drops a name: when every package name of
    one list occurs in another, the closure for the first is part of the
    closure for the second, in every mode. *)
Theorem full_dependencies_mono self l l' :
  (∀ r, r ∈ l → ∃ r', r' ∈ l' ∧ package_name r' = package_name r) →
  full_dependencies self l ⊆ full_dependencies self l'.
Proof.
  intros Hnames.
  assert (dom (requirements l) ⊆ dom (requirements l')) as Hdom.
  { intros n (r & Hr & <-)%elem_of_dom_requirements.
    apply elem_of_dom_requirements. by apply Hnames. }
  assert (root_requirements self l ⊆ root_requirements self l') as Hroot
    by (unfold root_requirements; set_solver).
  assert (reached self l ⊆ reached self l') as Hreached.
  { intros n [Hn|(r & deps & Hr & Hdeps & Hn)]%elem_of_reached;
      apply elem_of_reached; [left; by apply Hroot|].
    right. exists r, deps. split; [by apply Hroot|done]. }
  rewrite !full_dependencies_unfold.
  destruct (in_place self && negb (force self)); set_solver.
Qed.

Lemma full_dependencies_mono_scenario :
  full_dependencies (Examples.scenario false false false)
    Examples.scenario_existing
  ⊆ full_dependencies (Examples.scenario false false false)
      (Examples.orphan :: Examples.scenario_existing).
Proof.
  apply full_dependencies_mono. intros r Hr. exists r.
  split; [by apply list_elem_of_further|reflexivity].
Defined.

End more.
